(** * go-guardian store: the LRU cache with TTL expiry

    A shallow embedding of [store/lru.go] and of the two internal engines
    of the package ([core], used by [LRU], and its near-duplicate [cache],
    which adds [update], [evict], [clear] and [len]).

    Go objects that are shared by pointer are kept in an explicit store:
    - every [*list.Element] of the package carries one [*record] that is
      created together with it and never replaced by another one, so one
      address of type [ptr] stands for the element and for its record;
      the records live in [heap], and a record mutated through the map is
      the one seen through the list;
    - every [*time.Timer] lives in [timers], addressed by its index;
    - the calls made to the [OnEvicted] callback are recorded, in order,
      in [evicted].

    Instants and durations ([time.Time], [time.Duration]) are integers on
    one time axis; [now] is the value [time.Now().UTC()] has when the
    operation runs.  The zero [time.Time] is the integer 0. *)

From stdpp Require Import gmap strings list fin_maps.

Local Open Scope Z_scope.

(** ** Data model *)

(** Addresses of elements (and of their records). *)
Abbreviation ptr := nat (only parsing).

(** [interface{}] payloads: the cache never looks inside them. *)
Inductive value :=
  | VNil
  | VInt (n : Z)
  | VStr (s : string).

#[global] Instance value_eq_dec : EqDecision value.
Proof. solve_decision. Defined.

(** The one error of the package that the cache returns. *)
Inductive error := ErrCachedExp.

(** [type record struct { Exp time.Time; timer *time.Timer; Key string;
    Value interface{} }] *)
Record record := mkRecord {
  Exp : Z;
  timer : option nat;
  Key : string;
  Value : value
}.

(** A [time.Timer] made by [time.AfterFunc(ttl, func() { c.load(r.Key) })]:
    the record its closure captured, the instant it is due, and whether it
    is still pending (neither stopped nor fired). *)
Record timer_obj := mkTimer {
  t_rec : ptr;
  t_due : Z;
  t_pending : bool
}.

Record world := mkWorld {
  heap : list record;
  timers : list timer_obj;
  evicted : list (string * value)
}.

Definition zero_record : record := mkRecord 0 None "" VNil.

Definition deref (w : world) (e : ptr) : record :=
  default zero_record (heap w !! e).

Definition set_Value (v : value) (r : record) : record :=
  mkRecord (Exp r) (timer r) (Key r) v.

Definition set_Exp (x : Z) (r : record) : record :=
  mkRecord x (timer r) (Key r) (Value r).

Definition set_timer (t : option nat) (r : record) : record :=
  mkRecord (Exp r) t (Key r) (Value r).

Definition with_heap (f : list record → list record) (w : world) : world :=
  mkWorld (f (heap w)) (timers w) (evicted w).

Definition with_timers (f : list timer_obj → list timer_obj) (w : world) : world :=
  mkWorld (heap w) (f (timers w)) (evicted w).

(** One call [onEvicted(key, value)]. *)
Definition call_onEvicted (k : string) (v : value) (w : world) : world :=
  mkWorld (heap w) (timers w) (evicted w ++ [(k, v)]).

(** [t.Stop()]: a stopped or fired timer stays as it is. *)
Definition timer_Stop (t : nat) (w : world) : world :=
  with_timers (alter (λ o, mkTimer (t_rec o) (t_due o) false) t) w.

(** [time.AfterFunc(ttl, ...)] for the record [r], called at [now]. *)
Definition time_AfterFunc (r : ptr) (ttl now : Z) (w : world) : world * nat :=
  (with_timers (λ ts, ts ++ [mkTimer r (now + ttl) true]) w, length (timers w)).

(** ** container/list, front first *)

Module List_.

Definition PushBack (e : ptr) (l : list ptr) : list ptr := l ++ [e].

Definition Remove (e : ptr) (l : list ptr) : list ptr :=
  filter (λ x, x ≠ e) l.

(** "If e is not an element of l, the list is not modified." *)
Definition MoveToFront (e : ptr) (l : list ptr) : list ptr :=
  if bool_decide (e ∈ l) then e :: Remove e l else l.

Definition Back (l : list ptr) : option ptr := last l.

Definition Len (l : list ptr) : Z := Z.of_nat (length l).

End List_.

(** ** The engine [core] (used by [LRU]) *)

Record core := mkCore {
  ll : list ptr;
  cache : gmap string ptr;
  ttl : Z;
  onEvicted : bool
}.

Module Core.

Definition with_ll (f : list ptr → list ptr) (c : core) : core :=
  mkCore (f (ll c)) (cache c) (ttl c) (onEvicted c).

Definition with_cache (f : gmap string ptr → gmap string ptr) (c : core) : core :=
  mkCore (ll c) (f (cache c)) (ttl c) (onEvicted c).

(** [func (c *core) withTTL(r *record, ttl time.Duration) *record] *)
Definition withTTL (r : ptr) (ttl now : Z) (w : world) : world :=
  let w1 := match timer (deref w r) with
            | Some t => timer_Stop t w
            | None => w
            end in
  if bool_decide (0 < ttl) then
    let '(w2, t) := time_AfterFunc r ttl now w1 in
    with_heap (alter (λ x, set_Exp (now + ttl) (set_timer (Some t) x)) r) w2
  else w1.

(** [func (c *core) store(key string, value interface{}) *list.Element] *)
Definition store (key : string) (v : value) (now : Z) (w : world) (c : core)
  : world * core * ptr :=
  match cache c !! key with
  | Some e =>
      let w1 := with_heap (alter (set_Value v) e) w in
      (withTTL e (ttl c) now w1, c, e)
  | None =>
      let r := length (heap w) in
      let w1 := with_heap (λ h, h ++ [mkRecord 0 None key v]) w in
      let w2 := withTTL r (ttl c) now w1 in
      (w2, with_cache <[key := r]> (with_ll (List_.PushBack r) c), r)
  end.

(** [func (c *core) removeElement(e *list.Element)] *)
Definition removeElement (e : ptr) (w : world) (c : core) : world * core :=
  let c1 := with_ll (List_.Remove e) c in
  let kv := deref w e in
  let c2 := with_cache (delete (Key kv)) c1 in
  (if onEvicted c then call_onEvicted (Key kv) (Value kv) w else w, c2).

(** [func (c *core) load(key string)], returning the element, the
    hit flag and the error;
    [time.Now().UTC().After(r.Exp)] is [Exp r < now]. *)
Definition load (key : string) (now : Z) (w : world) (c : core)
  : world * core * (option ptr * bool * option error) :=
  match cache c !! key with
  | Some e =>
      let r := deref w e in
      if bool_decide (0 < ttl c) && bool_decide (Exp r < now) then
        let '(w1, c1) := removeElement e w c in
        (w1, c1, (Some e, true, Some ErrCachedExp))
      else (w, c, (Some e, true, None))
  | None => (w, c, (None, false, None))
  end.

(** [func (c *core) delete(key string)] *)
Definition delete (key : string) (w : world) (c : core) : world * core :=
  match cache c !! key with
  | Some e => removeElement e w c
  | None => (w, c)
  end.

(** [func (c *core) keys() (keys []string)]: Go ranges over the map in an
    unspecified order; the model takes the order of [map_to_list]. *)
Definition keys (c : core) : list string := (map_to_list (cache c)).*1.

End Core.

(** ** [LRU] ([store/lru.go])

    [New] is the constructor of the package and always allocates the
    engine; no method assigns [l.c].  The field is therefore a [core] and
    the [l.c == nil] guards of [Load], [Delete], [removeOldest] and [Len]
    are not taken.  The mutex [MU] is modelled with the threads that
    contend for it, in section [Locking]. *)

Record LRU := mkLRU {
  MaxEntries : Z;
  OnEvicted : bool;
  TTL : Z;
  c : core
}.

Definition state : Type := world * LRU.

Module Lru.

Definition with_c (co : core) (l : LRU) : LRU :=
  mkLRU (MaxEntries l) (OnEvicted l) (TTL l) co.

Definition empty_world : world := mkWorld [] [] [].

(** [func New(maxEntries int) *LRU] *)
Definition New (maxEntries : Z) : state :=
  (empty_world, mkLRU maxEntries false 0 (mkCore [] ∅ 0 false)).

(** [func (l *LRU) set()] *)
Definition set (l : LRU) : LRU :=
  with_c (mkCore (ll (c l)) (cache (c l)) (TTL l) (OnEvicted l)) l.

(** [func (l *LRU) removeOldest()] *)
Definition removeOldest (s : state) : state :=
  let '(w, l) := s in
  match List_.Back (ll (c l)) with
  | Some ele => let '(w1, c1) := Core.removeElement ele w (c l) in (w1, with_c c1 l)
  | None => s
  end.

(** [func (l *LRU) Store(key string, value interface{}, _ *http.Request) error] *)
Definition Store (key : string) (v : value) (now : Z) (s : state)
  : state * option error :=
  let '(w, l) := s in
  let l1 := set l in
  let '(w1, c1, e) := Core.store key v now w (c l1) in
  let c2 := Core.with_ll (List_.MoveToFront e) c1 in
  let s2 := (w1, with_c c2 l1) in
  if bool_decide (MaxEntries l1 ≠ 0) && bool_decide (MaxEntries l1 < List_.Len (ll c2))
  then (removeOldest s2, None)
  else (s2, None).

(** [func (l *LRU) Load(key string, _ *http.Request) (interface{}, bool, error)] *)
Definition Load (key : string) (now : Z) (s : state)
  : state * (value * bool * option error) :=
  let '(w, l) := s in
  let '(w1, c1, (e, ok, err)) := Core.load key now w (c l) in
  match e, ok, err with
  | Some e, true, None =>
      let c2 := Core.with_ll (List_.MoveToFront e) c1 in
      ((w1, with_c c2 l), (Value (deref w1 e), ok, err))
  | _, _, _ => ((w1, with_c c1 l), (VNil, ok, err))
  end.

(** [func (l *LRU) Delete(key string, _ *http.Request) error] *)
Definition Delete (key : string) (s : state) : state * option error :=
  let '(w, l) := s in
  let '(w1, c1) := Core.delete key w (c l) in
  ((w1, with_c c1 l), None).

(** [func (l *LRU) RemoveOldest()] *)
Definition RemoveOldest (s : state) : state := removeOldest s.

(** [func (l *LRU) Len() int] *)
Definition Len (s : state) : Z := List_.Len (ll (c (snd s))).

(** [func (l *LRU) Clear()]: the callback is called once for every entry
    of the map, and nothing else is done. *)
Definition Clear (s : state) : state :=
  let '(w, l) := s in
  if OnEvicted l then
    (foldl (λ w' ke, let kv := deref w' ke.2 in call_onEvicted (Key kv) (Value kv) w')
           w (map_to_list (cache (c l))), l)
  else s.

(** [func (l *LRU) Keys() []string] *)
Definition Keys (s : state) : list string := Core.keys (c (snd s)).

End Lru.

(** ** The engine [cache]

    [type cache struct { list *list.List; items map[string]*list.Element;
    ttl time.Duration; onEvicted OnEvicted }].  The field [list] is named
    [lst] here. *)

Module Cache.

Record cache := mkCache {
  lst : list ptr;
  items : gmap string ptr;
  ttl : Z;
  onEvicted : bool
}.

Definition with_lst (f : list ptr → list ptr) (c : cache) : cache :=
  mkCache (f (lst c)) (items c) (ttl c) (onEvicted c).

Definition with_items (f : gmap string ptr → gmap string ptr) (c : cache) : cache :=
  mkCache (lst c) (f (items c)) (ttl c) (onEvicted c).

(** [func newCache() *cache] *)
Definition newCache : cache := mkCache [] ∅ 0 false.

(** [func (c *cache) withTTL(r *record, ttl time.Duration) *record] *)
Definition withTTL (r : ptr) (ttl now : Z) (w : world) : world :=
  if bool_decide (0 < ttl) then
    let '(w1, t) := time_AfterFunc r ttl now w in
    with_heap (alter (λ x, set_Exp (now + ttl) (set_timer (Some t) x)) r) w1
  else w.

(** [func (c *cache) removeElement(e *list.Element)] *)
Definition removeElement (e : ptr) (w : world) (c : cache) : world * cache :=
  let c1 := with_lst (List_.Remove e) c in
  let r := deref w e in
  let w1 := match timer r with
            | Some t => timer_Stop t w
            | None => w
            end in
  (w1, with_items (delete (Key r)) c1).

(** [func (c *cache) evict(e *list.Element)] *)
Definition evict (e : ptr) (w : world) (c : cache) : world * cache :=
  let '(w1, c1) := removeElement e w c in
  let r := deref w1 e in
  (if onEvicted c1 then call_onEvicted (Key r) (Value r) w1 else w1, c1).

(** [func (c *cache) store(key string, value interface{}) *list.Element] *)
Definition store (key : string) (v : value) (now : Z) (w : world) (c : cache)
  : world * cache * ptr :=
  let '(w0, c0) := match items c !! key with
                   | Some e => removeElement e w c
                   | None => (w, c)
                   end in
  let r := length (heap w0) in
  let w1 := with_heap (λ h, h ++ [mkRecord 0 None key v]) w0 in
  let w2 := withTTL r (ttl c0) now w1 in
  (w2, with_items <[key := r]> (with_lst (List_.PushBack r) c0), r).

(** [func (c *cache) update(key string, value interface{})] *)
Definition update (key : string) (v : value) (w : world) (c : cache)
  : world * cache :=
  match items c !! key with
  | Some e => (with_heap (alter (set_Value v) e) w, c)
  | None => (w, c)
  end.

(** [func (c *cache) load(key string)], returning the element, the hit
    flag and the error. *)
Definition load (key : string) (now : Z) (w : world) (c : cache)
  : world * cache * (option ptr * bool * option error) :=
  match items c !! key with
  | Some e =>
      let r := deref w e in
      if bool_decide (0 < ttl c) && bool_decide (Exp r < now) then
        let '(w1, c1) := evict e w c in
        (w1, c1, (Some e, true, Some ErrCachedExp))
      else (w, c, (Some e, true, None))
  | None => (w, c, (None, false, None))
  end.

(** [func (c *cache) delete(key string)] *)
Definition delete (key : string) (w : world) (c : cache) : world * cache :=
  match items c !! key with
  | Some e => evict e w c
  | None => (w, c)
  end.

(** [func (c *cache) keys() (keys []string)] *)
Definition keys (c : cache) : list string := (map_to_list (items c)).*1.

(** [func (c *cache) len() int] *)
Definition len (c : cache) : Z := List_.Len (lst c).

(** [func (c *cache) clear()]: the loop ranges over [c.items] while
    [evict] deletes from it; Go does not produce an entry that was removed
    before the loop reached it. *)
Definition clear (w : world) (c : cache) : world * cache :=
  if negb (onEvicted c) then (w, c)
  else
    foldl (λ (wc : world * cache) (ke : string * ptr),
             if bool_decide (is_Some (items wc.2 !! ke.1))
             then evict ke.2 wc.1 wc.2 else wc)
          (w, c) (map_to_list (items c)).

End Cache.

(** ** Histories of the [LRU]

    What can happen to a cache built by [New]: a call of a method, an
    assignment to one of the exported fields [OnEvicted] and [TTL], or a
    pending timer going off, which runs [c.load(r.Key)]. *)

Inductive op :=
  | OpStore (key : string) (v : value)
  | OpLoad (key : string)
  | OpDelete (key : string)
  | OpRemoveOldest
  | OpLen
  | OpClear
  | OpKeys
  | SetOnEvicted (b : bool)
  | SetTTL (d : Z)
  | Fire (t : nat).

Module History.

(** The body of the closure handed to [time.AfterFunc]. *)
Definition trigger (r : ptr) (now : Z) (s : state) : state :=
  let '(w, l) := s in
  let '(w1, c1, _) := Core.load (Key (deref w r)) now w (c l) in
  (w1, Lru.with_c c1 l).

(** The runtime runs the closure of a pending timer once it is due. *)
Definition fire (t : nat) (now : Z) (s : state) : state :=
  match timers s.1 !! t with
  | Some o =>
      if t_pending o && bool_decide (t_due o ≤ now) then
        let w1 := with_timers (alter (λ o, mkTimer (t_rec o) (t_due o) false) t) s.1 in
        trigger (t_rec o) now (w1, s.2)
      else s
  | None => s
  end.

Definition step (now : Z) (o : op) (s : state) : state :=
  match o with
  | OpStore k v => (Lru.Store k v now s).1
  | OpLoad k => (Lru.Load k now s).1
  | OpDelete k => (Lru.Delete k s).1
  | OpRemoveOldest => Lru.RemoveOldest s
  | OpLen => s
  | OpClear => Lru.Clear s
  | OpKeys => s
  | SetOnEvicted b => (s.1, mkLRU (MaxEntries s.2) b (TTL s.2) (c s.2))
  | SetTTL d => (s.1, mkLRU (MaxEntries s.2) (OnEvicted s.2) d (c s.2))
  | Fire t => fire t now s
  end.

(** A history is a list of events, each with the instant it runs at. *)
Definition run (h : list (Z * op)) (s : state) : state :=
  foldl (λ s' e, step e.1 e.2 s') s h.

(** A history of [Store] calls only: each pair with the instant it is
    stored at. *)
Definition stores (tkvs : list (Z * (string * value))) : list (Z * op) :=
  (λ x, (x.1, OpStore x.2.1 x.2.2)) <$> tkvs.

End History.

(** ** Locking

    Threads are sequences of atomic actions.  A method of [LRU] is
    [l.MU.Lock(); defer l.MU.Unlock(); body]; its body, which reads or
    mutates the list and the map, is one [Touch].  The closure that
    [core.withTTL] gives to [time.AfterFunc] is [func() { c.load(r.Key) }]
    and runs on a thread of its own. *)

Module Locking.

Inductive action :=
  | Lock
  | Unlock
  | Touch (f : state → state).

Definition is_Lock (a : action) : bool :=
  match a with Lock => true | _ => false end.

Definition is_Touch (a : action) : bool :=
  match a with Touch _ => true | _ => false end.

Definition method (body : state → state) : list action :=
  [Lock; Touch body; Unlock].

Definition Store (key : string) (v : value) (now : Z) : list action :=
  method (λ s, (Lru.Store key v now s).1).

Definition Load (key : string) (now : Z) : list action :=
  method (λ s, (Lru.Load key now s).1).

Definition Delete (key : string) : list action :=
  method (λ s, (Lru.Delete key s).1).

Definition RemoveOldest : list action := method Lru.RemoveOldest.

Definition Len : list action := method (λ s, s).

Definition Clear : list action := method Lru.Clear.

Definition Keys : list action := method (λ s, s).

(** The thread of a timer that goes off. *)
Definition timer_thread (r : ptr) (now : Z) : list action :=
  [Touch (History.trigger r now)].

(** The mutex (free, or held by a thread), the cache, and what is left to
    run of every thread. *)
Record config := mkConfig {
  MU : option nat;
  st : state;
  threads : list (list action)
}.

(** Thread [i] takes its next action; [None] when it cannot ([Lock] on a
    held mutex blocks, a finished thread has nothing to do). *)
Definition sched (i : nat) (cf : config) : option config :=
  match threads cf !! i with
  | Some (Lock :: p) =>
      match MU cf with
      | None => Some (mkConfig (Some i) (st cf) (<[i := p]> (threads cf)))
      | Some _ => None
      end
  | Some (Unlock :: p) => Some (mkConfig None (st cf) (<[i := p]> (threads cf)))
  | Some (Touch f :: p) => Some (mkConfig (MU cf) (f (st cf)) (<[i := p]> (threads cf)))
  | _ => None
  end.

(** Every [Touch] of the thread comes after a [Lock] of that thread that
    no [Unlock] has released yet. *)
Fixpoint guarded (held : bool) (p : list action) : bool :=
  match p with
  | [] => true
  | Lock :: p' => guarded true p'
  | Unlock :: p' => guarded false p'
  | Touch _ :: p' => held && guarded held p'
  end.

End Locking.

(** ** Specification vocabulary *)

(** The map and the list describe the same entries: no node is linked
    twice, every key of the map leads to a linked node whose record
    carries that key, and the key of every linked node leads back to it. *)
Definition consistent (w : world) (l : list ptr) (m : gmap string ptr) : Prop :=
  NoDup l ∧
  (∀ k e, m !! k = Some e → e ∈ l ∧ ∃ r, heap w !! e = Some r ∧ Key r = k) ∧
  (∀ e, e ∈ l → ∃ r, heap w !! e = Some r ∧ m !! Key r = Some e).

Definition wf (s : state) : Prop :=
  consistent s.1 (ll (c s.2)) (cache (c s.2)).

(** The key and the payload of a record. *)
Definition kv (r : record) : string * value := (Key r, Value r).

Arguments kv : simpl never.

(** The live entries, most recently used first. *)
Definition entries (s : state) : list (string * value) :=
  (λ e, kv (deref s.1 e)) <$> ll (c s.2).

(** The same, as a test that computes. *)
Definition consistentb (w : world) (l : list ptr) (m : gmap string ptr) : bool :=
  bool_decide (NoDup l) &&
  forallb (λ ke : string * ptr,
             bool_decide (ke.2 ∈ l) &&
             bool_decide (Key <$> heap w !! ke.2 = Some ke.1)) (map_to_list m) &&
  forallb (λ e, bool_decide ((heap w !! e ≫= λ r, m !! Key r) = Some e)) l.

(** The record the map leads to for a key, if the key is live. *)
Definition live_record (s : state) (k : string) : option record :=
  cache (c s.2) !! k ≫= λ e, heap s.1 !! e.

(** The live entries, least recently used first. *)
Definition order (s : state) : list (string * value) := reverse (entries s).

(** The state [Store] is in when it reaches its capacity check. *)
Definition stored (key : string) (v : value) (now : Z) (s : state) : state :=
  let r := Core.store key v now s.1 (c (Lru.set s.2)) in
  (r.1.1, Lru.with_c (Core.with_ll (List_.MoveToFront r.2) r.1.2) (Lru.set s.2)).

(** Assigning the exported fields [OnEvicted] and [TTL]. *)
Definition configure (onEv : bool) (d : Z) (s : state) : state :=
  (s.1, mkLRU (MaxEntries s.2) onEv d (c s.2)).

(** The timers after [Stop] on the timer [x], if there is one. *)
Definition stop_old (x : option nat) (ts : list timer_obj) : list timer_obj :=
  match x with
  | Some t => alter (λ o, mkTimer (t_rec o) (t_due o) false) t ts
  | None => ts
  end.

(** [RemoveOldest] called [n] times in a row. *)
Definition drain (n : nat) (s : state) : state := Nat.iter n Lru.RemoveOldest s.

(** ** Histories of the engine [cache]

    The engine on its own: calls of its methods, assignments to its
    fields [ttl] and [onEvicted], and the closure of a timer of the record
    [r], which runs [c.load(r.Key)]. *)

Inductive cache_op :=
  | CStore (key : string) (v : value)
  | CUpdate (key : string) (v : value)
  | CLoad (key : string)
  | CDelete (key : string)
  | CClear
  | CSetOnEvicted (b : bool)
  | CSetTTL (d : Z)
  | CTrigger (r : ptr).

Module CacheHistory.

Definition step (now : Z) (o : cache_op) (wc : world * Cache.cache)
  : world * Cache.cache :=
  match o with
  | CStore k v => (Cache.store k v now wc.1 wc.2).1
  | CUpdate k v => Cache.update k v wc.1 wc.2
  | CLoad k => (Cache.load k now wc.1 wc.2).1
  | CDelete k => Cache.delete k wc.1 wc.2
  | CClear => Cache.clear wc.1 wc.2
  | CSetOnEvicted b =>
      (wc.1, Cache.mkCache (Cache.lst wc.2) (Cache.items wc.2) (Cache.ttl wc.2) b)
  | CSetTTL d =>
      (wc.1, Cache.mkCache (Cache.lst wc.2) (Cache.items wc.2) d (Cache.onEvicted wc.2))
  | CTrigger r => (Cache.load (Key (deref wc.1 r)) now wc.1 wc.2).1
  end.

Definition run (h : list (Z * cache_op)) (wc : world * Cache.cache)
  : world * Cache.cache :=
  foldl (λ wc' e, step e.1 e.2 wc') wc h.

(** The engine as [newCache] makes it, in a world with nothing in it. *)
Definition init : world * Cache.cache := (Lru.empty_world, Cache.newCache).

(** The live entries of the engine, front first. *)
Definition entries (wc : world * Cache.cache) : list (string * value) :=
  (λ e, kv (deref wc.1 e)) <$> Cache.lst wc.2.

(** The timer of a record is pending. *)
Definition timer_pending (w : world) (r : record) : bool :=
  match timer r with
  | Some t => match timers w !! t with
              | Some o => t_pending o
              | None => false
              end
  | None => false
  end.

End CacheHistory.

(** * Properties *)

(** ** Records behind the pointers *)

Lemma deref_Some w e r : heap w !! e = Some r → deref w e = r.
Proof. unfold deref. by intros ->. Qed.

Lemma lookup_alter_kv (f : record → record) (h : list record) (r e : ptr) :
  (∀ x, kv (f x) = kv x) →
  kv <$> alter f r h !! e = kv <$> h !! e.
Proof.
  intros Hf. destruct (decide (r = e)) as [->|Hne].
  - rewrite list_lookup_alter_eq. destruct (h !! e); simpl; by rewrite ?Hf.
  - by rewrite list_lookup_alter_ne.
Qed.

Module CoreFacts.

Lemma heap_withTTL_kv r d now w e :
  kv <$> heap (Core.withTTL r d now w) !! e = kv <$> heap w !! e.
Proof.
  unfold Core.withTTL. case_bool_decide; simpl.
  - rewrite lookup_alter_kv; [|done]. by destruct (timer (deref w r)).
  - by destruct (timer (deref w r)).
Qed.

Lemma evicted_withTTL r d now w :
  evicted (Core.withTTL r d now w) = evicted w.
Proof.
  unfold Core.withTTL. case_bool_decide; simpl; by destruct (timer (deref w r)).
Qed.

(** With a positive [ttl], [withTTL] stamps the record with [now + ttl]. *)
Lemma Exp_withTTL r d now w x :
  0 < d → heap w !! r = Some x →
  Exp <$> heap (Core.withTTL r d now w) !! r = Some (now + d).
Proof.
  intros Hd Hx. unfold Core.withTTL. rewrite bool_decide_eq_true_2; [|done].
  simpl. rewrite list_lookup_alter_eq.
  destruct (timer (deref w r)); simpl; by rewrite Hx.
Qed.

End CoreFacts.

(** ** The list *)

Module ListFacts.

Lemma Remove_notin e (l : list ptr) : e ∉ l → List_.Remove e l = l.
Proof.
  unfold List_.Remove. induction l as [|x l IH]; [done|].
  intros Hn. apply not_elem_of_cons in Hn as [Hne Hn].
  rewrite filter_cons_True; [|done]. by rewrite IH.
Qed.

Lemma Remove_cons_eq e (l : list ptr) :
  List_.Remove e (e :: l) = List_.Remove e l.
Proof. unfold List_.Remove. by rewrite filter_cons_False by (intros H; by apply H). Qed.

Lemma Remove_snoc e (l : list ptr) :
  e ∉ l → List_.Remove e (l ++ [e]) = l.
Proof.
  intros Hn. unfold List_.Remove. rewrite filter_app.
  fold (List_.Remove e l). rewrite Remove_notin; [|done].
  rewrite filter_cons_False by (intros H; by apply H).
  by rewrite filter_nil, app_nil_r.
Qed.

Lemma elem_of_Remove e x (l : list ptr) :
  x ∈ List_.Remove e l ↔ x ≠ e ∧ x ∈ l.
Proof. unfold List_.Remove. by rewrite list_elem_of_filter. Qed.

Lemma NoDup_Remove e (l : list ptr) : NoDup l → NoDup (List_.Remove e l).
Proof. apply NoDup_filter. Qed.

Lemma length_Remove e (l : list ptr) :
  NoDup l → e ∈ l → S (length (List_.Remove e l)) = length l.
Proof.
  induction l as [|x l IH]; intros Hnd Hin; [by apply elem_of_nil in Hin|].
  apply NoDup_cons in Hnd as [Hx Hnd].
  destruct (decide (x = e)) as [->|Hne].
  - rewrite Remove_cons_eq, Remove_notin; done.
  - unfold List_.Remove. rewrite filter_cons_True; [|done]. simpl.
    f_equal. apply IH; [done|].
    apply elem_of_cons in Hin as [->|]; done.
Qed.

Lemma MoveToFront_Permutation e (l : list ptr) :
  NoDup l → List_.MoveToFront e l ≡ₚ l.
Proof.
  intros Hnd. unfold List_.MoveToFront. case_bool_decide as Hin; [|done].
  induction l as [|x l IH]; [by apply elem_of_nil in Hin|].
  apply NoDup_cons in Hnd as [Hx Hnd].
  destruct (decide (x = e)) as [->|Hne].
  - by rewrite Remove_cons_eq, Remove_notin.
  - unfold List_.Remove. rewrite filter_cons_True; [|done].
    rewrite Permutation_swap. f_equiv. apply IH; [done|].
    apply elem_of_cons in Hin as [->|]; done.
Qed.

(** A node that was just pushed at the back and is moved to the front. *)
Lemma MoveToFront_PushBack e (l : list ptr) :
  e ∉ l → List_.MoveToFront e (List_.PushBack e l) = e :: l.
Proof.
  intros Hn. unfold List_.MoveToFront, List_.PushBack.
  rewrite bool_decide_eq_true_2 by (apply elem_of_app; right; by apply list_elem_of_singleton).
  by rewrite Remove_snoc.
Qed.

End ListFacts.

(** ** Consistency of the map and the list *)

Module Consistency.

Lemma kv_Key r r' : kv r' = kv r → Key r' = Key r.
Proof. unfold kv. congruence. Qed.

Lemma kv_Value r r' : kv r' = kv r → Value r' = Value r.
Proof. unfold kv. congruence. Qed.

Lemma Key_of_kv (o o' : option record) :
  kv <$> o' = kv <$> o → Key <$> o' = Key <$> o.
Proof.
  destruct o, o'; simpl; intros Heq; try done.
  f_equal. apply kv_Key. congruence.
Qed.

Lemma frame_Some (w w' : world) e r :
  (∀ e, Key <$> heap w' !! e = Key <$> heap w !! e) →
  heap w !! e = Some r →
  ∃ r', heap w' !! e = Some r' ∧ Key r' = Key r.
Proof.
  intros Hf Hr. specialize (Hf e). rewrite Hr in Hf.
  destruct (heap w' !! e) as [r'|]; [|done].
  exists r'. split; [done|]. simpl in Hf. congruence.
Qed.

(** Consistency only looks at the keys of the records. *)
Lemma frame_Key (w w' : world) l (m : gmap string ptr) :
  (∀ e, Key <$> heap w' !! e = Key <$> heap w !! e) →
  consistent w l m → consistent w' l m.
Proof.
  intros Hf (Hnd & Hm & Hl). split_and!; [done|..].
  - intros k e Hk. destruct (Hm k e Hk) as (Hin & r & Hr & <-).
    split; [done|]. destruct (frame_Some w w' e r Hf Hr) as (r' & Hr' & Hkv).
    by exists r'.
  - intros e Hin. destruct (Hl e Hin) as (r & Hr & Hk).
    destruct (frame_Some w w' e r Hf Hr) as (r' & Hr' & Hkv).
    exists r'. split; [done|]. by rewrite Hkv.
Qed.

Lemma frame (w w' : world) l (m : gmap string ptr) :
  (∀ e, kv <$> heap w' !! e = kv <$> heap w !! e) →
  consistent w l m → consistent w' l m.
Proof. intros Hf. apply frame_Key. intros e. by apply Key_of_kv. Qed.

Lemma perm (w : world) l l' (m : gmap string ptr) :
  l ≡ₚ l' → consistent w l m → consistent w l' m.
Proof.
  intros Hp (Hnd & Hm & Hl). split_and!.
  - by rewrite <- Hp.
  - intros k e Hk. destruct (Hm k e Hk) as (Hin & Hr). split; [|done].
    by rewrite <- Hp.
  - intros e Hin. apply Hl. by rewrite Hp.
Qed.

Lemma valid_ptr (w : world) l (m : gmap string ptr) e :
  consistent w l m → e ∈ l → (e < length (heap w))%nat.
Proof.
  intros (_ & _ & Hl) Hin. destruct (Hl e Hin) as (r & Hr & _).
  by eapply lookup_lt_Some.
Qed.

Lemma lookup_inj (w : world) l (m : gmap string ptr) k1 k2 e :
  consistent w l m → m !! k1 = Some e → m !! k2 = Some e → k1 = k2.
Proof.
  intros (_ & Hm & _) H1 H2.
  destruct (Hm _ _ H1) as (_ & r1 & Hr1 & <-).
  destruct (Hm _ _ H2) as (_ & r2 & Hr2 & <-). congruence.
Qed.

(** Unlinking a node and deleting its key. *)
Lemma remove (w : world) l (m : gmap string ptr) e :
  consistent w l m → e ∈ l →
  consistent w (List_.Remove e l) (delete (Key (deref w e)) m).
Proof.
  intros Hc Hin. pose proof Hc as (Hnd & Hm & Hl).
  destruct (Hl e Hin) as (r & Hr & Hk). rewrite (deref_Some _ _ _ Hr).
  split_and!.
  - by apply ListFacts.NoDup_Remove.
  - intros k e'. rewrite lookup_delete_Some. intros [Hne Hk'].
    destruct (Hm _ _ Hk') as (Hin' & Hr'). split; [|done].
    apply ListFacts.elem_of_Remove. split; [|done].
    intros ->. apply Hne. by eapply lookup_inj.
  - intros e'. rewrite ListFacts.elem_of_Remove. intros [Hne Hin'].
    destruct (Hl e' Hin') as (r' & Hr' & Hk'). exists r'. split; [done|].
    rewrite lookup_delete_ne; [done|]. intros Heq. rewrite Heq in Hk. congruence.
Qed.

(** Linking a fresh node under a key the map does not have. *)
Lemma push (w : world) l (m : gmap string ptr) r :
  consistent w l m → m !! Key r = None →
  consistent (with_heap (λ h, h ++ [r]) w)
             (List_.PushBack (length (heap w)) l)
             (<[Key r := length (heap w)]> m).
Proof.
  intros Hc Hk. pose proof Hc as (Hnd & Hm & Hl).
  assert (Hfresh : length (heap w) ∉ l).
  { intros Hin. apply (valid_ptr _ _ _ _ Hc) in Hin. lia. }
  unfold List_.PushBack. split_and!.
  - apply NoDup_app. split_and!; [done| |apply NoDup_singleton].
    intros x Hx ->%list_elem_of_singleton. done.
  - intros k e. rewrite lookup_insert_Some. intros [[<- <-]|[Hne Hk']].
    + split; [apply elem_of_app; right; by apply list_elem_of_singleton|].
      exists r. split; [|done]. simpl. by rewrite lookup_app_r, Nat.sub_diag.
    + destruct (Hm _ _ Hk') as (Hin & r' & Hr' & Hkr).
      split; [apply elem_of_app; by left|].
      exists r'. split; [|done]. simpl. by apply lookup_app_l_Some.
  - intros e. rewrite elem_of_app, list_elem_of_singleton. intros [Hin| ->].
    + destruct (Hl e Hin) as (r' & Hr' & Hk'). exists r'. split.
      * simpl. by apply lookup_app_l_Some.
      * rewrite lookup_insert_ne; [done|]. intros Heq. rewrite <- Heq in Hk'. congruence.
    + exists r. split; [|by rewrite lookup_insert_eq].
      simpl. by rewrite lookup_app_r, Nat.sub_diag.
Qed.

End Consistency.

(** ** The engine [core] keeps the map and the list consistent *)

Module CoreInv.

Lemma heap_removeElement e w c :
  heap (Core.removeElement e w c).1 = heap w.
Proof. unfold Core.removeElement. by destruct (onEvicted c). Qed.

Lemma heap_removeElement_deref e w c :
  (λ x, kv (deref (Core.removeElement e w c).1 x)) = (λ x, kv (deref w x)).
Proof. unfold deref. by rewrite heap_removeElement. Qed.

Lemma ll_removeElement e w c :
  ll (Core.removeElement e w c).2 = List_.Remove e (ll c).
Proof. done. Qed.

Lemma cache_removeElement e w c :
  cache (Core.removeElement e w c).2 = delete (Key (deref w e)) (cache c).
Proof. done. Qed.

Lemma evicted_removeElement e w c :
  evicted (Core.removeElement e w c).1 =
  evicted w ++ (if onEvicted c then [kv (deref w e)] else []).
Proof.
  unfold Core.removeElement. destruct (onEvicted c); simpl; [done|].
  by rewrite app_nil_r.
Qed.

Lemma removeElement_consistent e w c :
  consistent w (ll c) (cache c) → e ∈ ll c →
  consistent (Core.removeElement e w c).1
             (ll (Core.removeElement e w c).2)
             (cache (Core.removeElement e w c).2).
Proof.
  intros Hc Hin. rewrite ll_removeElement, cache_removeElement.
  eapply Consistency.frame; [|by apply Consistency.remove].
  intros x. by rewrite heap_removeElement.
Qed.

Lemma store_present k v now w c e :
  cache c !! k = Some e →
  Core.store k v now w c =
  (Core.withTTL e (ttl c) now (with_heap (alter (set_Value v) e) w), c, e).
Proof. unfold Core.store. by intros ->. Qed.

Lemma store_absent k v now w c :
  cache c !! k = None →
  Core.store k v now w c =
  (Core.withTTL (length (heap w)) (ttl c) now
     (with_heap (λ h, h ++ [mkRecord 0 None k v]) w),
   Core.with_cache <[k := length (heap w)]>
     (Core.with_ll (List_.PushBack (length (heap w))) c),
   length (heap w)).
Proof. unfold Core.store. by intros ->. Qed.

Lemma Key_set_Value v (h : list record) e x :
  Key <$> alter (set_Value v) e h !! x = Key <$> h !! x.
Proof.
  destruct (decide (e = x)) as [->|Hne].
  - rewrite list_lookup_alter_eq. by destruct (h !! x).
  - by rewrite list_lookup_alter_ne.
Qed.

Lemma store_consistent k v now w c :
  consistent w (ll c) (cache c) →
  consistent (Core.store k v now w c).1.1
             (ll (Core.store k v now w c).1.2)
             (cache (Core.store k v now w c).1.2).
Proof.
  intros Hc. destruct (cache c !! k) as [e|] eqn:Hk.
  - rewrite (store_present _ _ _ _ _ _ Hk). simpl.
    eapply Consistency.frame; [apply CoreFacts.heap_withTTL_kv|].
    eapply Consistency.frame_Key; [|done].
    intros x. simpl. apply Key_set_Value.
  - rewrite (store_absent _ _ _ _ _ Hk). simpl.
    eapply Consistency.frame; [apply CoreFacts.heap_withTTL_kv|].
    by apply (Consistency.push w (ll c) (cache c) (mkRecord 0 None k v)).
Qed.

Lemma load_consistent k now w c :
  consistent w (ll c) (cache c) →
  consistent (Core.load k now w c).1.1
             (ll (Core.load k now w c).1.2)
             (cache (Core.load k now w c).1.2).
Proof.
  intros Hc. unfold Core.load. destruct (cache c !! k) as [e|] eqn:Hk; [|done].
  destruct (_ && _); [|done].
  destruct (Core.removeElement e w c) as [w1 c1] eqn:Hr. simpl.
  replace w1 with (Core.removeElement e w c).1 by by rewrite Hr.
  replace c1 with (Core.removeElement e w c).2 by by rewrite Hr.
  apply removeElement_consistent; [done|].
  destruct Hc as (_ & Hm & _). by destruct (Hm _ _ Hk).
Qed.

Lemma delete_consistent k w c :
  consistent w (ll c) (cache c) →
  consistent (Core.delete k w c).1
             (ll (Core.delete k w c).2)
             (cache (Core.delete k w c).2).
Proof.
  intros Hc. unfold Core.delete. destruct (cache c !! k) as [e|] eqn:Hk; [|done].
  apply removeElement_consistent; [done|].
  destruct Hc as (_ & Hm & _). by destruct (Hm _ _ Hk).
Qed.

End CoreInv.

(** ** Every event keeps the [LRU] consistent *)

Module LruInv.

Lemma removeOldest_unfold w l :
  Lru.removeOldest (w, l) =
  match List_.Back (ll (c l)) with
  | Some ele => ((Core.removeElement ele w (c l)).1,
                 Lru.with_c (Core.removeElement ele w (c l)).2 l)
  | None => (w, l)
  end.
Proof. unfold Lru.removeOldest. by destruct (List_.Back _). Qed.

Lemma wf_removeOldest s : wf s → wf (Lru.removeOldest s).
Proof.
  destruct s as [w l]. intros Hwf. rewrite removeOldest_unfold.
  destruct (List_.Back (ll (c l))) as [e|] eqn:Hb; [|done].
  apply CoreInv.removeElement_consistent; [done|].
  by apply last_Some_elem_of.
Qed.

Lemma Store_unfold key v now s :
  (Lru.Store key v now s).1 =
  if bool_decide (MaxEntries s.2 ≠ 0) &&
     bool_decide (MaxEntries s.2 < Lru.Len (stored key v now s))
  then Lru.removeOldest (stored key v now s)
  else stored key v now s.
Proof.
  destruct s as [w l]. unfold Lru.Store, stored. cbn [fst snd].
  destruct (Core.store key v now w (c (Lru.set l))) as [[w1 c1] e]. cbn [fst snd].
  by destruct (_ && _).
Qed.

Lemma wf_stored key v now s : wf s → wf (stored key v now s).
Proof.
  destruct s as [w l]. intros Hwf. unfold wf, stored. simpl.
  pose proof (CoreInv.store_consistent key v now w (c (Lru.set l)) Hwf) as Hc.
  eapply Consistency.perm; [|exact Hc].
  symmetry. apply ListFacts.MoveToFront_Permutation. by destruct Hc.
Qed.

Lemma wf_Store key v now s : wf s → wf (Lru.Store key v now s).1.
Proof.
  intros Hwf. rewrite Store_unfold.
  destruct (_ && _); [apply wf_removeOldest|]; by apply wf_stored.
Qed.

Lemma wf_Load key now s : wf s → wf (Lru.Load key now s).1.
Proof.
  destruct s as [w l]. intros Hwf. unfold Lru.Load.
  pose proof (CoreInv.load_consistent key now w (c l) Hwf) as Hc.
  destruct (Core.load key now w (c l)) as [[w1 c1] [[e ok] err]]. simpl in Hc.
  destruct e as [e|], ok, err; try done.
  unfold wf. simpl. eapply Consistency.perm; [|exact Hc].
  symmetry. apply ListFacts.MoveToFront_Permutation. by destruct Hc.
Qed.

Lemma wf_Delete key s : wf s → wf (Lru.Delete key s).1.
Proof.
  destruct s as [w l]. intros Hwf. unfold Lru.Delete.
  pose proof (CoreInv.delete_consistent key w (c l) Hwf) as Hc.
  by destruct (Core.delete key w (c l)) as [w1 c1].
Qed.

Lemma heap_Clear_fold (m : list (string * ptr)) w :
  heap (foldl (λ w' ke, let r := deref w' ke.2 in
                        call_onEvicted (Key r) (Value r) w') w m) = heap w.
Proof. revert w. induction m as [|x m IH]; intros w; [done|]. simpl. by rewrite IH. Qed.

Lemma wf_Clear s : wf s → wf (Lru.Clear s).
Proof.
  destruct s as [w l]. intros Hwf. unfold Lru.Clear.
  destruct (OnEvicted l); [|done].
  eapply Consistency.frame; [|exact Hwf].
  intros e. simpl. by rewrite heap_Clear_fold.
Qed.

Lemma wf_trigger r now s : wf s → wf (History.trigger r now s).
Proof.
  destruct s as [w l]. intros Hwf. unfold History.trigger.
  pose proof (CoreInv.load_consistent (Key (deref w r)) now w (c l) Hwf) as Hc.
  by destruct (Core.load _ now w (c l)) as [[w1 c1] ?].
Qed.

Lemma wf_fire t now s : wf s → wf (History.fire t now s).
Proof.
  intros Hwf. unfold History.fire.
  destruct (timers s.1 !! t) as [o|]; [|done].
  destruct (_ && _); [|done].
  apply wf_trigger. by destruct s.
Qed.

Lemma wf_step now o s : wf s → wf (History.step now o s).
Proof.
  intros Hwf. destruct o; simpl;
    auto using wf_Store, wf_Load, wf_Delete, wf_removeOldest, wf_Clear, wf_fire.
Qed.

Lemma wf_run h s : wf s → wf (History.run h s).
Proof.
  revert s. induction h as [|e h IH]; intros s Hwf; [done|].
  simpl. apply IH. by apply wf_step.
Qed.

Lemma wf_New n : wf (Lru.New n).
Proof.
  split_and!; [apply NoDup_nil_2|..].
  - intros k e Hk. cbn in Hk. by rewrite lookup_empty in Hk.
  - intros e He. cbn in He. by apply elem_of_nil in He.
Qed.

End LruInv.

(** ** What [Store] and [removeOldest] do to the entries *)

Module Entries.

Lemma kv_deref (w w' : world) e :
  kv <$> heap w' !! e = kv <$> heap w !! e → kv (deref w' e) = kv (deref w e).
Proof.
  unfold deref. destruct (heap w' !! e), (heap w !! e); simpl; congruence.
Qed.

Lemma map_ext_in (w w' : world) (l : list ptr) :
  (∀ e, e ∈ l → kv <$> heap w' !! e = kv <$> heap w !! e) →
  (λ e, kv (deref w' e)) <$> l = (λ e, kv (deref w e)) <$> l.
Proof.
  intros H. apply list_fmap_ext. intros i e Hi.
  apply kv_deref, H. by eapply list_elem_of_lookup_2.
Qed.

Lemma lookup_absent_fresh (w : world) (co : core) k :
  consistent w (ll co) (cache co) → cache co !! k = None →
  length (heap w) ∉ ll co.
Proof.
  intros Hc _ Hin. apply (Consistency.valid_ptr _ _ _ _ Hc) in Hin. lia.
Qed.

(** Storing a key the map does not have links a fresh node at the front. *)
Lemma stored_absent k v now s :
  wf s → cache (c s.2) !! k = None →
  ll (c (stored k v now s).2) = length (heap s.1) :: ll (c s.2) ∧
  cache (c (stored k v now s).2) = <[k := length (heap s.1)]> (cache (c s.2)) ∧
  entries (stored k v now s) = (k, v) :: entries s ∧
  evicted (stored k v now s).1 = evicted s.1.
Proof.
  destruct s as [w l]. intros Hwf Hk. unfold stored, entries. cbn [fst snd].
  assert (Hk' : cache (c (Lru.set l)) !! k = None) by done.
  rewrite (CoreInv.store_absent _ _ _ _ _ Hk'). cbn [fst snd].
  assert (Hfresh : length (heap w) ∉ ll (c l)) by by eapply lookup_absent_fresh.
  assert (Hll : List_.MoveToFront (length (heap w))
                  (List_.PushBack (length (heap w)) (ll (c l))) =
                length (heap w) :: ll (c l))
    by by apply ListFacts.MoveToFront_PushBack.
  split_and!.
  - simpl. exact Hll.
  - done.
  - simpl. rewrite Hll. rewrite fmap_cons. f_equal.
    + rewrite (kv_deref (with_heap (λ h, h ++ [mkRecord 0 None k v]) w)
                 (Core.withTTL _ _ _ _)) by apply CoreFacts.heap_withTTL_kv.
      unfold deref. simpl. by rewrite lookup_app_r, Nat.sub_diag.
    + apply map_ext_in. intros e He.
      rewrite CoreFacts.heap_withTTL_kv. simpl.
      rewrite lookup_app_l; [done|].
      by eapply Consistency.valid_ptr.
  - simpl. by rewrite CoreFacts.evicted_withTTL.
Qed.

(** Storing a key the map has rewrites its record in place and moves its
    node to the front. *)
Lemma stored_present k v now s e :
  wf s → cache (c s.2) !! k = Some e →
  ll (c (stored k v now s).2) = e :: List_.Remove e (ll (c s.2)) ∧
  cache (c (stored k v now s).2) = cache (c s.2) ∧
  entries (stored k v now s) =
    (k, v) :: ((λ x, kv (deref s.1 x)) <$> List_.Remove e (ll (c s.2))) ∧
  evicted (stored k v now s).1 = evicted s.1.
Proof.
  destruct s as [w l]. intros Hwf Hk. unfold stored, entries. cbn [fst snd].
  assert (Hk' : cache (c (Lru.set l)) !! k = Some e) by done.
  rewrite (CoreInv.store_present _ _ _ _ _ _ Hk'). cbn [fst snd].
  destruct Hwf as (Hnd & Hm & Hl).
  destruct (Hm _ _ Hk) as (Hin & r & Hr & HK). cbn [fst snd] in *.
  assert (Hll : List_.MoveToFront e (ll (c l)) = e :: List_.Remove e (ll (c l))).
  { unfold List_.MoveToFront. by rewrite bool_decide_eq_true_2. }
  split_and!.
  - simpl. exact Hll.
  - done.
  - simpl. rewrite Hll, fmap_cons. f_equal.
    + rewrite (kv_deref (with_heap (alter (set_Value v) e) w)
                 (Core.withTTL _ _ _ _)) by apply CoreFacts.heap_withTTL_kv.
      unfold deref. simpl. rewrite list_lookup_alter_eq, Hr. simpl.
      unfold kv. simpl. by rewrite HK.
    + apply map_ext_in. intros x [Hne _]%ListFacts.elem_of_Remove.
      rewrite CoreFacts.heap_withTTL_kv. simpl.
      by rewrite list_lookup_alter_ne.
  - simpl. by rewrite CoreFacts.evicted_withTTL.
Qed.

Lemma length_entries s : Lru.Len s = Z.of_nat (length (entries s)).
Proof. unfold Lru.Len, List_.Len, entries. by rewrite length_fmap. Qed.

(** [removeOldest] unlinks the node at the back and reports its entry. *)
Lemma removeOldest_entries s :
  wf s →
  entries (Lru.removeOldest s) = removelast (entries s) ∧
  evicted (Lru.removeOldest s).1 =
    evicted s.1 ++ (if onEvicted (c s.2) then option_list (last (entries s)) else []) ∧
  ll (c (Lru.removeOldest s).2) = removelast (ll (c s.2)).
Proof.
  destruct s as [w l]. intros Hwf. rewrite LruInv.removeOldest_unfold.
  unfold entries. cbn [fst snd]. unfold List_.Back.
  destruct (last (ll (c l))) as [e|] eqn:Hb.
  - apply last_Some in Hb as [l' Hl']. cbn [fst snd].
    rewrite CoreInv.heap_removeElement_deref.
    cbn [c Lru.with_c]. rewrite CoreInv.ll_removeElement, CoreInv.evicted_removeElement.
    rewrite Hl'. destruct Hwf as (Hnd & _). cbn [fst snd] in Hnd. rewrite Hl' in Hnd.
    apply NoDup_app in Hnd as (_ & Hnot & _).
    assert (He : e ∉ l') by (intros Hin; apply (Hnot e Hin); by apply list_elem_of_singleton).
    rewrite ListFacts.Remove_snoc by done.
    rewrite fmap_app, removelast_last. simpl.
    by rewrite removelast_last, last_snoc.
  - apply last_None in Hb. cbn [fst snd]. rewrite !Hb. simpl.
    split_and!; [done| |done].
    destruct (onEvicted (c l)); symmetry; apply app_nil_r.
Qed.

End Entries.

(** ** The number of live entries *)

Arguments stored : simpl never.
Arguments Lru.removeOldest : simpl never.

Module LenFacts.

Lemma Len_removeElement e w co :
  List_.Len (ll (Core.removeElement e w co).2) ≤ List_.Len (ll co).
Proof.
  rewrite CoreInv.ll_removeElement. unfold List_.Len, List_.Remove.
  pose proof (length_filter (λ x, x ≠ e) (ll co)). lia.
Qed.

Lemma Len_MoveToFront e (l : list ptr) :
  NoDup l → List_.Len (List_.MoveToFront e l) = List_.Len l.
Proof.
  intros Hnd. unfold List_.Len.
  by rewrite (ListFacts.MoveToFront_Permutation e l Hnd).
Qed.

Lemma Len_load k now w co :
  List_.Len (ll (Core.load k now w co).1.2) ≤ List_.Len (ll co).
Proof.
  unfold Core.load. destruct (cache co !! k) as [e|]; [|done].
  destruct (_ && _); [|done].
  pose proof (Len_removeElement e w co).
  by destruct (Core.removeElement e w co).
Qed.

Lemma Len_stored_absent k v now s :
  wf s → cache (c s.2) !! k = None →
  Lru.Len (stored k v now s) = Lru.Len s + 1.
Proof.
  intros Hwf Hk. destruct (Entries.stored_absent k v now s Hwf Hk) as (Hll & _).
  unfold Lru.Len, List_.Len. rewrite Hll. simpl length. lia.
Qed.

Lemma Len_stored_present k v now s e :
  wf s → cache (c s.2) !! k = Some e →
  Lru.Len (stored k v now s) = Lru.Len s.
Proof.
  intros Hwf Hk. destruct (Entries.stored_present k v now s e Hwf Hk) as (Hll & _).
  unfold Lru.Len, List_.Len. rewrite Hll. simpl length.
  destruct Hwf as (Hnd & Hm & _). destruct (Hm _ _ Hk) as (Hin & _).
  by rewrite (ListFacts.length_Remove e _ Hnd Hin).
Qed.

Lemma Len_removeOldest s :
  wf s → Lru.Len (Lru.removeOldest s) = Z.max 0 (Lru.Len s - 1).
Proof.
  intros Hwf. destruct (Entries.removeOldest_entries s Hwf) as (_ & _ & Hll).
  unfold Lru.Len, List_.Len. rewrite Hll.
  destruct (ll (c s.2)) as [|x l] using rev_ind; [done|].
  rewrite removelast_last, length_app. simpl. lia.
Qed.

Lemma MaxEntries_removeOldest s :
  MaxEntries (Lru.removeOldest s).2 = MaxEntries s.2.
Proof.
  destruct s as [w l]. rewrite LruInv.removeOldest_unfold.
  by destruct (List_.Back _).
Qed.

Lemma MaxEntries_Store k v now s :
  MaxEntries (Lru.Store k v now s).1.2 = MaxEntries s.2.
Proof.
  rewrite LruInv.Store_unfold.
  destruct (_ && _); [rewrite MaxEntries_removeOldest|]; done.
Qed.

Lemma MaxEntries_Load k now s :
  MaxEntries (Lru.Load k now s).1.2 = MaxEntries s.2.
Proof.
  destruct s as [w l]. unfold Lru.Load.
  destruct (Core.load k now w (c l)) as [[w1 c1] [[e ok] err]].
  by destruct e, ok, err.
Qed.

Lemma MaxEntries_step now o s :
  MaxEntries (History.step now o s).2 = MaxEntries s.2.
Proof.
  destruct o; simpl; try done.
  - apply MaxEntries_Store.
  - apply MaxEntries_Load.
  - destruct s as [w l]. unfold Lru.Delete.
    by destruct (Core.delete key w (c l)).
  - apply MaxEntries_removeOldest.
  - destruct s as [w l]. unfold Lru.Clear. by destruct (OnEvicted l).
  - unfold History.fire. destruct (timers s.1 !! t); [|done].
    destruct (_ && _); [|done]. unfold History.trigger.
    by destruct (Core.load _ _ _ _) as [[? ?] ?].
Qed.

(** [Store] adds at most one entry and takes one away on overflow. *)
Lemma Len_Store k v now s :
  wf s → 0 < MaxEntries s.2 → Lru.Len s ≤ MaxEntries s.2 →
  Lru.Len (Lru.Store k v now s).1 ≤ MaxEntries s.2.
Proof.
  intros Hwf Hpos Hle. rewrite LruInv.Store_unfold.
  assert (Hst : Lru.Len (stored k v now s) ≤ Lru.Len s + 1).
  { destruct (cache (c s.2) !! k) as [e|] eqn:Hk.
    - rewrite (Len_stored_present _ _ _ _ _ Hwf Hk). lia.
    - rewrite (Len_stored_absent _ _ _ _ Hwf Hk). lia. }
  rewrite (bool_decide_eq_true_2 (MaxEntries s.2 ≠ 0)) by lia. cbn [andb].
  case_bool_decide as Hov; [|lia].
  rewrite Len_removeOldest by by apply LruInv.wf_stored. lia.
Qed.

Lemma Len_Load k now s :
  wf s → Lru.Len (Lru.Load k now s).1 ≤ Lru.Len s.
Proof.
  destruct s as [w l]. intros Hwf. unfold Lru.Load, Lru.Len. cbn [fst snd].
  pose proof (Len_load k now w (c l)) as Hle.
  pose proof (CoreInv.load_consistent k now w (c l) Hwf) as Hc.
  destruct (Core.load k now w (c l)) as [[w1 c1] [[e ok] err]].
  cbn [fst snd] in *.
  destruct e as [e|], ok, err; try done.
  cbn [fst snd c Lru.with_c ll Core.with_ll].
  rewrite Len_MoveToFront; [done|]. by destruct Hc.
Qed.

Lemma Len_Delete k s : Lru.Len (Lru.Delete k s).1 ≤ Lru.Len s.
Proof.
  destruct s as [w l]. unfold Lru.Delete, Lru.Len, Core.delete. cbn [fst snd].
  destruct (cache (c l) !! k) as [e|]; [|done].
  pose proof (Len_removeElement e w (c l)).
  by destruct (Core.removeElement e w (c l)).
Qed.

Lemma Len_Clear s : Lru.Len (Lru.Clear s) = Lru.Len s.
Proof. destruct s as [w l]. unfold Lru.Clear. by destruct (OnEvicted l). Qed.

Lemma Len_fire t now s : Lru.Len (History.fire t now s) ≤ Lru.Len s.
Proof.
  unfold History.fire. destruct (timers s.1 !! t) as [o|]; [|done].
  destruct (_ && _); [|done]. unfold History.trigger, Lru.Len.
  match goal with |- context [Core.load ?k ?n ?w ?co] =>
    pose proof (Len_load k n w co) as Hle;
    destruct (Core.load k n w co) as [[w1 c1] ?] end.
  done.
Qed.

Lemma Len_step now o s :
  wf s → 0 < MaxEntries s.2 → Lru.Len s ≤ MaxEntries s.2 →
  Lru.Len (History.step now o s) ≤ MaxEntries s.2.
Proof.
  intros Hwf Hpos Hle. destruct o; simpl; try done.
  - by apply Len_Store.
  - pose proof (Len_Load key now s Hwf). lia.
  - pose proof (Len_Delete key s). lia.
  - unfold Lru.RemoveOldest. rewrite Len_removeOldest by done. lia.
  - by rewrite Len_Clear.
  - pose proof (Len_fire t now s). lia.
Qed.

Lemma MaxEntries_run h s :
  MaxEntries (History.run h s).2 = MaxEntries s.2.
Proof.
  revert s. induction h as [|e h IH]; intros s; [done|].
  simpl. by rewrite IH, MaxEntries_step.
Qed.

Lemma Len_run h s :
  wf s → 0 < MaxEntries s.2 → Lru.Len s ≤ MaxEntries s.2 →
  Lru.Len (History.run h s) ≤ MaxEntries s.2 ∧
  MaxEntries (History.run h s).2 = MaxEntries s.2.
Proof.
  revert s. induction h as [|e h IH]; intros s Hwf Hpos Hle; [done|].
  simpl. pose proof (MaxEntries_step e.1 e.2 s) as HM.
  rewrite <- HM. apply IH.
  - by apply LruInv.wf_step.
  - by rewrite HM.
  - rewrite HM. by apply Len_step.
Qed.

End LenFacts.

(** ** After [Store], the key is live at the front *)

Module StoreFacts.

Lemma config_store k v now w co :
  ttl (Core.store k v now w co).1.2 = ttl co ∧
  onEvicted (Core.store k v now w co).1.2 = onEvicted co.
Proof. unfold Core.store. by destruct (cache co !! k). Qed.

Lemma config_stored k v now s :
  ttl (c (stored k v now s).2) = TTL s.2 ∧
  onEvicted (c (stored k v now s).2) = OnEvicted s.2 ∧
  MaxEntries (stored k v now s).2 = MaxEntries s.2 ∧
  OnEvicted (stored k v now s).2 = OnEvicted s.2 ∧
  TTL (stored k v now s).2 = TTL s.2.
Proof.
  unfold stored. cbn [fst snd c Lru.with_c ttl onEvicted Core.with_ll].
  destruct (config_store k v now s.1 (c (Lru.set s.2))) as [-> ->]. done.
Qed.

Lemma config_removeOldest s :
  ttl (c (Lru.removeOldest s).2) = ttl (c s.2) ∧
  onEvicted (c (Lru.removeOldest s).2) = onEvicted (c s.2) ∧
  OnEvicted (Lru.removeOldest s).2 = OnEvicted s.2 ∧
  TTL (Lru.removeOldest s).2 = TTL s.2.
Proof.
  destruct s as [w l]. rewrite LruInv.removeOldest_unfold.
  by destruct (List_.Back _).
Qed.

(** The record of the key in the state [stored]. *)
Lemma stored_post k v now s :
  wf s →
  ∃ e r tl,
    ll (c (stored k v now s).2) = e :: tl ∧
    cache (c (stored k v now s).2) !! k = Some e ∧
    heap (stored k v now s).1 !! e = Some r ∧
    kv r = (k, v) ∧
    (0 < TTL s.2 → Exp r = now + TTL s.2).
Proof.
  intros Hwf.
  assert (Hpost : ∀ (w1 : world) e x,
            heap w1 !! e = Some x → kv x = (k, v) →
            ∃ r, heap (Core.withTTL e (TTL s.2) now w1) !! e = Some r ∧
                 kv r = (k, v) ∧ (0 < TTL s.2 → Exp r = now + TTL s.2)).
  { intros w1 e x Hx Hkv.
    pose proof (CoreFacts.heap_withTTL_kv e (TTL s.2) now w1 e) as Hf.
    rewrite Hx in Hf. simpl in Hf.
    destruct (heap (Core.withTTL e (TTL s.2) now w1) !! e) as [r|] eqn:Hr; [|done].
    exists r. split_and!; [done|simpl in Hf; congruence|].
    intros Hd. pose proof (CoreFacts.Exp_withTTL e _ now w1 x Hd Hx) as HE.
    rewrite Hr in HE. simpl in HE. congruence. }
  destruct (cache (c s.2) !! k) as [e|] eqn:Hk.
  - destruct (Entries.stored_present k v now s e Hwf Hk) as (Hll & Hca & _).
    destruct Hwf as (_ & Hm & _). destruct (Hm _ _ Hk) as (_ & x & Hx & HK).
    destruct (Hpost (with_heap (alter (set_Value v) e) s.1) e (set_Value v x))
      as (r & Hr & Hkv & HE).
    { simpl. by rewrite list_lookup_alter_eq, Hx. }
    { unfold kv. simpl. by rewrite HK. }
    exists e, r, (List_.Remove e (ll (c s.2))). split_and!; try done.
    + by rewrite Hca.
    + unfold stored. cbn [fst snd].
      assert (Hk' : cache (c (Lru.set s.2)) !! k = Some e) by done.
      by rewrite (CoreInv.store_present _ _ _ _ _ _ Hk').
  - destruct (Entries.stored_absent k v now s Hwf Hk) as (Hll & Hca & _).
    destruct (Hpost (with_heap (λ h, h ++ [mkRecord 0 None k v]) s.1)
                (length (heap s.1)) (mkRecord 0 None k v))
      as (r & Hr & Hkv & HE).
    { simpl. by rewrite lookup_app_r, Nat.sub_diag. }
    { done. }
    exists (length (heap s.1)), r, (ll (c s.2)). split_and!; try done.
    + by rewrite Hca, lookup_insert_eq.
    + unfold stored. cbn [fst snd].
      assert (Hk' : cache (c (Lru.set s.2)) !! k = None) by done.
      by rewrite (CoreInv.store_absent _ _ _ _ _ Hk').
Qed.

(** The capacity check of [Store] leaves the key that was just stored
    alone: with a capacity that is not negative, an overflow means at
    least two nodes, and the stored one is at the front. *)
Lemma Store_post k v now s :
  wf s → 0 ≤ MaxEntries s.2 →
  ∃ e r tl,
    ll (c (Lru.Store k v now s).1.2) = e :: tl ∧
    cache (c (Lru.Store k v now s).1.2) !! k = Some e ∧
    heap (Lru.Store k v now s).1.1 !! e = Some r ∧
    kv r = (k, v) ∧
    (0 < TTL s.2 → Exp r = now + TTL s.2).
Proof.
  intros Hwf Hcap. rewrite LruInv.Store_unfold.
  destruct (stored_post k v now s Hwf) as (e & r & tl & Hll & Hca & Hr & Hkv & HE).
  destruct (bool_decide (MaxEntries s.2 ≠ 0) &&
            bool_decide (MaxEntries s.2 < Lru.Len (stored k v now s))) eqn:Hov;
    [|by exists e, r, tl].
  apply andb_true_iff in Hov as [Hne%bool_decide_eq_true Hlt%bool_decide_eq_true].
  pose proof (LruInv.wf_stored k v now s Hwf) as Hwf'.
  unfold Lru.Len, List_.Len in Hlt. rewrite Hll in Hlt. simpl length in Hlt.
  destruct tl as [|y tl] using rev_ind; [simpl in Hlt; lia|]. clear IHtl.
  destruct (stored k v now s) as [w1 l1] eqn:Hst. cbn [fst snd] in *.
  rewrite LruInv.removeOldest_unfold. unfold List_.Back.
  assert (Hlast : last (e :: tl ++ [y]) = Some y)
    by (rewrite app_comm_cons; apply last_snoc).
  rewrite Hll, Hlast. cbn [fst snd c Lru.with_c].
  rewrite CoreInv.ll_removeElement, CoreInv.cache_removeElement,
    CoreInv.heap_removeElement, Hll.
  destruct Hwf' as (Hnd & Hm & Hl). cbn [fst snd] in *.
  rewrite Hll in Hnd. change (e :: tl ++ [y]) with ((e :: tl) ++ [y]) in *.
  apply NoDup_app in Hnd as (_ & Hnot & _).
  assert (Hy : y ∉ e :: tl)
    by (intros Hin; apply (Hnot y Hin); by apply list_elem_of_singleton).
  rewrite ListFacts.Remove_snoc by done.
  exists e, r, tl. split_and!; try done.
  rewrite lookup_delete_ne; [done|].
  destruct (Hl y) as (ry & Hry & Hky).
  { rewrite Hll. apply elem_of_app. right. by apply list_elem_of_singleton. }
  rewrite (deref_Some _ _ _ Hry). intros Heq. rewrite Heq in Hky.
  rewrite Hca in Hky. injection Hky as ->.
  apply Hy. by left.
Qed.

End StoreFacts.

(** ** [Load] and [Delete], case by case *)

Module LoadFacts.

Lemma with_c_id (l : LRU) : Lru.with_c (c l) l = l.
Proof. by destruct l. Qed.

Lemma live_record_Some s k r :
  live_record s k = Some r ↔
  ∃ e, cache (c s.2) !! k = Some e ∧ heap s.1 !! e = Some r.
Proof.
  unfold live_record. destruct (cache (c s.2) !! k) as [e|]; simpl.
  - split; [by exists e|]. by intros (? & [= <-] & ?).
  - split; [done|]. by intros (? & ? & ?).
Qed.

Lemma Load_miss k now s :
  cache (c s.2) !! k = None → Lru.Load k now s = (s, (VNil, false, None)).
Proof.
  destruct s as [w l]. cbn [fst snd]. intros Hk.
  unfold Lru.Load, Core.load. rewrite Hk. by rewrite with_c_id.
Qed.

(** A present key that is not expired: the node moves to the front, the
    value is returned. *)
Lemma Load_hit k now s e r :
  cache (c s.2) !! k = Some e → heap s.1 !! e = Some r →
  (0 < ttl (c s.2) → now ≤ Exp r) →
  Lru.Load k now s =
    ((s.1, Lru.with_c (Core.with_ll (List_.MoveToFront e) (c s.2)) s.2),
     (Value r, true, None)).
Proof.
  destruct s as [w l]. cbn [fst snd]. intros Hk Hr Hx.
  unfold Lru.Load, Core.load. rewrite Hk, (deref_Some _ _ _ Hr).
  destruct (bool_decide (0 < ttl (c l))) eqn:Hd; cbn [andb].
  - apply bool_decide_eq_true in Hd.
    rewrite (bool_decide_eq_false_2 (Exp r < now)) by (specialize (Hx Hd); lia).
    by rewrite (deref_Some _ _ _ Hr).
  - by rewrite (deref_Some _ _ _ Hr).
Qed.


Lemma Delete_absent k s :
  cache (c s.2) !! k = None → Lru.Delete k s = (s, None).
Proof.
  destruct s as [w l]. cbn [fst snd]. intros Hk.
  unfold Lru.Delete, Core.delete. rewrite Hk. by rewrite with_c_id.
Qed.

Lemma Delete_present k s e :
  cache (c s.2) !! k = Some e →
  Lru.Delete k s =
    (((Core.removeElement e s.1 (c s.2)).1,
      Lru.with_c (Core.removeElement e s.1 (c s.2)).2 s.2), None).
Proof.
  destruct s as [w l]. cbn [fst snd]. intros Hk.
  unfold Lru.Delete, Core.delete. rewrite Hk.
  by destruct (Core.removeElement e w (c l)).
Qed.

(** What removing the node of a live key leaves. *)
Lemma removeElement_live s k e r :
  wf s → cache (c s.2) !! k = Some e → heap s.1 !! e = Some r →
  Key r = k ∧
  cache (Core.removeElement e s.1 (c s.2)).2 = delete k (cache (c s.2)) ∧
  ll (Core.removeElement e s.1 (c s.2)).2 = List_.Remove e (ll (c s.2)) ∧
  List_.Len (ll (Core.removeElement e s.1 (c s.2)).2) = Lru.Len s - 1 ∧
  heap (Core.removeElement e s.1 (c s.2)).1 = heap s.1 ∧
  evicted (Core.removeElement e s.1 (c s.2)).1 =
    evicted s.1 ++ (if onEvicted (c s.2) then [(k, Value r)] else []).
Proof.
  intros (Hnd & Hm & _) Hk Hr.
  destruct (Hm _ _ Hk) as (Hin & r' & Hr' & HK).
  assert (r' = r) as -> by congruence.
  rewrite CoreInv.cache_removeElement, CoreInv.ll_removeElement,
    CoreInv.heap_removeElement, CoreInv.evicted_removeElement,
    (deref_Some _ _ _ Hr), HK.
  split_and!; try done.
  - unfold Lru.Len, List_.Len. rewrite <- (ListFacts.length_Remove e _ Hnd Hin). lia.
  - unfold kv. by rewrite HK.
Qed.

End LoadFacts.

(** * Main results *)

(** ** C6: the map and the list agree after every operation *)


(** ** C3: the capacity bound *)

Lemma Store_error k v now s : (Lru.Store k v now s).2 = None.
Proof.
  destruct s as [w l]. unfold Lru.Store.
  destruct (Core.store k v now w (c (Lru.set l))) as [[w1 c1] e].
  by destruct (_ && _).
Qed.

Lemma reachable_bounded (N : Z) (h : list (Z * op)) :
  0 < N →
  wf (History.run h (Lru.New N)) ∧
  MaxEntries (History.run h (Lru.New N)).2 = N ∧
  Lru.Len (History.run h (Lru.New N)) ≤ N.
Proof.
  intros HN.
  destruct (LenFacts.Len_run h (Lru.New N)) as [Hle HM];
    [apply LruInv.wf_New|cbn; lia|unfold Lru.Len, List_.Len; cbn; lia|].
  cbn in Hle, HM.
  split_and!; [apply LruInv.wf_run, LruInv.wf_New|done|done].
Qed.

(** C3.  For a capacity [N > 0], after any history of a cache built by
    [New N] the number of live entries is at most [N].  A [Store] in such
    a state is never rejected: it returns no error, its key is the most
    recently used entry afterwards, the bound still holds, and when the
    cache was full and the key new, the entries are the new one followed
    by the old ones without the least recently used. *)
Theorem capacity_invariant (N : Z) (h : list (Z * op))
    (k : string) (v : value) (now : Z) :
  0 < N →
  Lru.Len (History.run h (Lru.New N)) ≤ N ∧
  (Lru.Store k v now (History.run h (Lru.New N))).2 = None ∧
  Lru.Len (Lru.Store k v now (History.run h (Lru.New N))).1 ≤ N ∧
  head (entries (Lru.Store k v now (History.run h (Lru.New N))).1) = Some (k, v) ∧
  (cache (c (History.run h (Lru.New N)).2) !! k = None →
   Lru.Len (History.run h (Lru.New N)) = N →
   entries (Lru.Store k v now (History.run h (Lru.New N))).1 =
     (k, v) :: removelast (entries (History.run h (Lru.New N)))).
Proof.
  intros HN. destruct (reachable_bounded N h HN) as (Hwf & HM & Hle).
  set (s := History.run h (Lru.New N)) in *.
  split_and!; [done|apply Store_error|..].
  - rewrite <- HM. apply LenFacts.Len_Store; [done|lia|lia].
  - destruct (StoreFacts.Store_post k v now s Hwf) as (e & r & tl & Hll & _ & Hr & Hkv & _);
      [lia|].
    unfold entries. rewrite Hll. simpl. by rewrite (deref_Some _ _ _ Hr), Hkv.
  - intros Hk Hfull. rewrite LruInv.Store_unfold.
    destruct (Entries.stored_absent k v now s Hwf Hk) as (_ & _ & Hen & _).
    rewrite (LenFacts.Len_stored_absent _ _ _ _ Hwf Hk).
    rewrite (bool_decide_eq_true_2 (MaxEntries s.2 ≠ 0)) by lia.
    rewrite (bool_decide_eq_true_2 (MaxEntries s.2 < Lru.Len s + 1)) by lia.
    cbn [andb].
    destruct (Entries.removeOldest_entries (stored k v now s)) as (-> & _);
      [by apply LruInv.wf_stored|].
    rewrite Hen. rewrite Entries.length_entries in Hfull.
    destruct (entries s) as [|x l]; [simpl in Hfull; lia|done].
Qed.

Lemma capacity_invariant_witness :
  Lru.Len (History.run [(0, OpStore "a" (VInt 1)); (1, OpStore "b" (VInt 2));
                        (2, OpStore "c" (VInt 3))] (Lru.New 2)) ≤ 2 ∧
  entries (Lru.Store "d" (VInt 4) 3
             (History.run [(0, OpStore "a" (VInt 1)); (1, OpStore "b" (VInt 2));
                           (2, OpStore "c" (VInt 3))] (Lru.New 2))).1
  = [("d", VInt 4); ("c", VInt 3)].
Proof.
  split.
  - exact (proj1 (capacity_invariant 2
             [(0, OpStore "a" (VInt 1)); (1, OpStore "b" (VInt 2));
              (2, OpStore "c" (VInt 3))] "d" (VInt 4) 3 ltac:(lia))).
  - refine (proj2 (proj2 (proj2 (proj2 (capacity_invariant 2
             [(0, OpStore "a" (VInt 1)); (1, OpStore "b" (VInt 2));
              (2, OpStore "c" (VInt 3))] "d" (VInt 4) 3 _)))) _ _).
    + lia.
    + vm_compute. reflexivity.
    + vm_compute. reflexivity.
Defined.

(** ** C4: eviction follows insertion order *)

Module EvictionOrder.

Lemma reverse_removelast {A} (l : list A) :
  reverse (removelast l) = drop 1 (reverse l).
Proof.
  destruct l as [|x l] using rev_ind; [done|].
  by rewrite removelast_last, reverse_snoc.
Qed.

Lemma last_reverse {A} (l : list A) :
  option_list (last l) = take 1 (reverse l).
Proof.
  destruct l as [|x l] using rev_ind; [done|].
  rewrite last_snoc, reverse_snoc. simpl. by rewrite take_0.
Qed.

(** A key is in the map exactly when it is the key of a live entry. *)
Lemma live_keys s k :
  wf s → is_Some (cache (c s.2) !! k) ↔ k ∈ (entries s).*1.
Proof.
  intros (Hnd & Hm & Hl). unfold entries. split.
  - intros [e Hk]. destruct (Hm _ _ Hk) as (Hin & r & Hr & HK).
    apply list_elem_of_fmap. exists (kv r). split; [by rewrite <- HK|].
    apply list_elem_of_fmap. exists e. split; [|done].
    by rewrite (deref_Some _ _ _ Hr).
  - intros (x & -> & (e & -> & Hin)%list_elem_of_fmap)%list_elem_of_fmap.
    destruct (Hl e Hin) as (r & Hr & HK). exists e.
    by rewrite (deref_Some _ _ _ Hr).
Qed.

Lemma live_keys_order s k :
  wf s → is_Some (cache (c s.2) !! k) ↔ k ∈ (order s).*1.
Proof.
  intros Hwf. rewrite (live_keys s k Hwf). unfold order.
  by rewrite fmap_reverse, elem_of_reverse.
Qed.

Lemma length_order s : Lru.Len s = Z.of_nat (length (order s)).
Proof. unfold order. by rewrite length_reverse, Entries.length_entries. Qed.

(** One [Store] of a key that is not live, on a cache within its bound. *)
Lemma Store_fresh k v now s :
  wf s → 0 < MaxEntries s.2 → Lru.Len s ≤ MaxEntries s.2 →
  k ∉ (order s).*1 →
  order (Lru.Store k v now s).1 =
    drop (length (order s ++ [(k, v)]) - Z.to_nat (MaxEntries s.2))
         (order s ++ [(k, v)]) ∧
  evicted (Lru.Store k v now s).1.1 =
    evicted s.1 ++
    (if OnEvicted s.2
     then take (length (order s ++ [(k, v)]) - Z.to_nat (MaxEntries s.2))
               (order s ++ [(k, v)])
     else []) ∧
  OnEvicted (Lru.Store k v now s).1.2 = OnEvicted s.2.
Proof.
  intros Hwf Hpos Hle Hfresh.
  assert (Hk : cache (c s.2) !! k = None).
  { apply eq_None_not_Some. by rewrite live_keys_order. }
  rewrite LruInv.Store_unfold.
  destruct (Entries.stored_absent k v now s Hwf Hk) as (_ & _ & Hen & Hev).
  destruct (StoreFacts.config_stored k v now s) as (_ & Hon & _ & HOn & _).
  rewrite (LenFacts.Len_stored_absent _ _ _ _ Hwf Hk).
  rewrite (bool_decide_eq_true_2 (MaxEntries s.2 ≠ 0)) by lia. cbn [andb].
  rewrite length_order in Hle. rewrite length_order, length_app. simpl length.
  case_bool_decide as Hov.
  - destruct (Entries.removeOldest_entries (stored k v now s)) as (Hen' & Hev' & _);
      [by apply LruInv.wf_stored|].
    destruct (StoreFacts.config_removeOldest (stored k v now s)) as (_ & _ & -> & _).
    replace (length (order s) + 1 - Z.to_nat (MaxEntries s.2))%nat with 1%nat by lia.
    unfold order in *. rewrite Hen', Hev', Hen, Hev, Hon, HOn.
    rewrite reverse_removelast, last_reverse, reverse_cons.
    split_and!; [|done..].
    rewrite length_reverse in Hov, Hle.
    destruct (reverse (entries s)) as [|x l] eqn:Hr; [|done].
    rewrite <- (length_reverse (entries s)), Hr in Hov, Hle. simpl in *. lia.
  - replace (length (order s) + 1 - Z.to_nat (MaxEntries s.2))%nat with 0%nat by lia.
    unfold order. rewrite Hen, Hev, HOn, reverse_cons, drop_0, take_0.
    by destruct (OnEvicted s.2); rewrite app_nil_r.
Qed.

Lemma run_stores_cons t k v tkvs s :
  History.run (History.stores ((t, (k, v)) :: tkvs)) s =
  History.run (History.stores tkvs) (Lru.Store k v t s).1.
Proof. done. Qed.

(** A sequence of [Store] calls of keys that are pairwise distinct and
    not live at the start. *)
Lemma run_stores tkvs s :
  wf s → 0 < MaxEntries s.2 → Lru.Len s ≤ MaxEntries s.2 →
  NoDup (order s ++ tkvs.*2).*1 →
  order (History.run (History.stores tkvs) s) =
    drop (length (order s ++ tkvs.*2) - Z.to_nat (MaxEntries s.2))
         (order s ++ tkvs.*2) ∧
  evicted (History.run (History.stores tkvs) s).1 =
    evicted s.1 ++
    (if OnEvicted s.2
     then take (length (order s ++ tkvs.*2) - Z.to_nat (MaxEntries s.2))
               (order s ++ tkvs.*2)
     else []) ∧
  wf (History.run (History.stores tkvs) s).
Proof.
  revert s. induction tkvs as [|[t [k v]] tkvs IH]; intros s Hwf Hpos Hle Hnd.
  - simpl. rewrite app_nil_r. rewrite length_order in Hle.
    replace (length (order s) - Z.to_nat (MaxEntries s.2))%nat with 0%nat by lia.
    rewrite drop_0, take_0. split_and!; [done| |done].
    by destruct (OnEvicted s.2); rewrite app_nil_r.
  - rewrite run_stores_cons. rewrite fmap_cons in *. cbn [snd] in *.
    assert (Hfresh : k ∉ (order s).*1).
    { rewrite fmap_app in Hnd. apply NoDup_app in Hnd as (_ & Hd & _).
      intros Hin. apply (Hd k Hin). rewrite fmap_cons. by left. }
    destruct (Store_fresh k v t s Hwf Hpos Hle Hfresh) as (Ho & He & HOn).
    set (s1 := (Lru.Store k v t s).1) in *.
    set (o1 := order s ++ [(k, v)]) in *.
    set (N := Z.to_nat (MaxEntries s.2)) in *.
    assert (HM : MaxEntries s1.2 = MaxEntries s.2) by apply LenFacts.MaxEntries_Store.
    assert (Hcons : order s ++ (k, v) :: tkvs.*2 = o1 ++ tkvs.*2)
      by (unfold o1; by rewrite <- app_assoc).
    assert (Ho1 : order s1 ++ tkvs.*2 = drop (length o1 - N) (o1 ++ tkvs.*2)).
    { rewrite Ho. rewrite drop_app_le; [done|lia]. }
    destruct (IH s1) as (Ho' & He' & Hwf').
    + by apply LruInv.wf_Store.
    + by rewrite HM.
    + rewrite HM. by apply LenFacts.Len_Store.
    + rewrite Ho1. eapply sublist_NoDup; [exact Hnd|].
      rewrite Hcons. apply fmap_sublist, sublist_drop.
    + rewrite Hcons. rewrite Ho', He', He, HM, HOn, Ho1. fold N.
      rewrite length_drop, drop_drop.
      replace (length o1 - N + (length (o1 ++ tkvs.*2) - (length o1 - N) - N))%nat
        with (length (o1 ++ tkvs.*2) - N)%nat by (rewrite length_app; lia).
      split_and!; [done| |done].
      destruct (OnEvicted s.2); [|by rewrite !app_nil_r].
      rewrite <- app_assoc. f_equal.
      rewrite <- (take_app_le o1 (tkvs.*2)) by lia.
      rewrite take_take_drop. f_equal. rewrite length_app. lia.
Qed.

End EvictionOrder.

Lemma wf_configure b d s : wf s → wf (configure b d s).
Proof. by destruct s. Qed.

(** C4.  Storing [N + j] pairs with pairwise distinct keys, and nothing
    else, into a fresh cache of capacity [N > 0] with a callback (and any
    TTL) calls the callback for exactly the first [j] pairs, in insertion
    order and with their key and value; the live entries are exactly the
    last [N] pairs, the oldest being the next to go. *)
Theorem eviction_in_insertion_order (N : Z) (j : nat) (d : Z)
    (tkvs : list (Z * (string * value))) :
  0 < N → NoDup tkvs.*2.*1 → length tkvs = (Z.to_nat N + j)%nat →
  evicted (History.run (History.stores tkvs) (configure true d (Lru.New N))).1
    = take j tkvs.*2 ∧
  order (History.run (History.stores tkvs) (configure true d (Lru.New N)))
    = drop j tkvs.*2 ∧
  (∀ k, is_Some (cache (c (History.run (History.stores tkvs)
                             (configure true d (Lru.New N))).2) !! k)
        ↔ k ∈ (drop j tkvs.*2).*1) ∧
  Lru.Len (History.run (History.stores tkvs) (configure true d (Lru.New N))) = N.
Proof.
  intros HN Hnd Hlen.
  destruct (EvictionOrder.run_stores tkvs (configure true d (Lru.New N)))
    as (Ho & He & Hwf).
  - apply wf_configure, LruInv.wf_New.
  - done.
  - unfold Lru.Len, List_.Len. cbn. lia.
  - done.
  - change (order (configure true d (Lru.New N))) with (@nil (string * value)) in *.
    change (MaxEntries (configure true d (Lru.New N)).2) with N in *.
    cbn [app] in *. rewrite length_fmap, Hlen in Ho, He.
    replace (Z.to_nat N + j - Z.to_nat N)%nat with j in * by lia.
    split_and!; [done|done| |].
    + intros k. rewrite (EvictionOrder.live_keys_order _ k Hwf). by rewrite Ho.
    + rewrite EvictionOrder.length_order, Ho, length_drop, length_fmap, Hlen. lia.
Qed.

Lemma eviction_in_insertion_order_witness :
  evicted (History.run
             (History.stores [(0, ("a", VInt 1)); (1, ("b", VInt 2));
                              (2, ("c", VInt 3)); (3, ("d", VInt 4))])
             (configure true 0 (Lru.New 2))).1
  = [("a", VInt 1); ("b", VInt 2)].
Proof.
  refine (proj1 (eviction_in_insertion_order 2 2 0
            [(0, ("a", VInt 1)); (1, ("b", VInt 2));
             (2, ("c", VInt 3)); (3, ("d", VInt 4))] _ _ _)).
  - lia.
  - apply (bool_decide_unpack (NoDup ["a"; "b"; "c"; "d"])). vm_compute. exact I.
  - reflexivity.
Defined.

(** ** C1: expiry on [Load] *)

Lemma config_Store k v now s :
  ttl (c (Lru.Store k v now s).1.2) = TTL s.2 ∧
  onEvicted (c (Lru.Store k v now s).1.2) = OnEvicted s.2.
Proof.
  rewrite LruInv.Store_unfold.
  destruct (StoreFacts.config_stored k v now s) as (Ht & Ho & _).
  destruct (_ && _); [|done].
  destruct (StoreFacts.config_removeOldest (stored k v now s)) as (-> & -> & _).
  done.
Qed.




(** ** C8: [Delete] *)

Lemma fmap_filter_iff {A B} (f : A → B) (P : A → Prop) (Q : B → Prop)
    `{!∀ x, Decision (P x)} `{!∀ y, Decision (Q y)} (l : list A) :
  (∀ x, x ∈ l → (P x ↔ Q (f x))) →
  f <$> filter P l = filter Q (f <$> l).
Proof.
  induction l as [|x l IH]; intros Hiff; [done|].
  assert (Hx := Hiff x ltac:(by left)).
  assert (HIH : f <$> filter P l = filter Q (f <$> l))
    by (apply IH; intros y Hy; apply Hiff; by right).
  rewrite fmap_cons, (filter_cons Q), (filter_cons P).
  destruct (decide (P x)), (decide (Q (f x))); try tauto;
    by rewrite ?fmap_cons, HIH.
Qed.

(** Unlinking the node of a live key drops exactly the entry of that key. *)
Lemma entries_Remove s k e :
  wf s → cache (c s.2) !! k = Some e →
  (λ x, kv (deref s.1 x)) <$> List_.Remove e (ll (c s.2)) =
  filter (λ x, x.1 ≠ k) (entries s).
Proof.
  intros Hwf Hk. unfold List_.Remove, entries.
  apply (fmap_filter_iff _ (λ x, x ≠ e) (λ x : string * value, x.1 ≠ k)).
  intros x Hx. pose proof Hwf as (_ & Hm & Hl).
  destruct (Hl x Hx) as (r & Hr & HK). rewrite (deref_Some _ _ _ Hr).
  unfold kv. simpl. split.
  - intros Hne Heq. apply Hne. rewrite Heq in HK. congruence.
  - intros Hne ->. destruct (Hm _ _ Hk) as (_ & r' & Hr' & HK'). congruence.
Qed.

(** C8.  On any state a cache built by [New] can reach: [Delete] returns
    no error.  On an absent key it leaves the state as it is, so no entry
    goes, nothing is called, and repeating it changes nothing either.  On
    a present key it deletes that key from the map and its entry from the
    list and no other, the number of entries drops by exactly one, and the
    callback the engine holds (the one [Store] copied from [OnEvicted]), if
    any, is called exactly once, with the deleted key and value; after
    that the key is absent, so a second [Delete] is a no-op. *)
Theorem Delete_once (N : Z) (h : list (Z * op)) (k : string) :
  (Lru.Delete k (History.run h (Lru.New N))).2 = None ∧
  (cache (c (History.run h (Lru.New N)).2) !! k = None →
   Lru.Delete k (History.run h (Lru.New N)) = (History.run h (Lru.New N), None) ∧
   Lru.Delete k (Lru.Delete k (History.run h (Lru.New N))).1
     = (History.run h (Lru.New N), None)) ∧
  (∀ r, live_record (History.run h (Lru.New N)) k = Some r →
   cache (c (Lru.Delete k (History.run h (Lru.New N))).1.2)
     = delete k (cache (c (History.run h (Lru.New N)).2)) ∧
   entries (Lru.Delete k (History.run h (Lru.New N))).1
     = filter (λ x, x.1 ≠ k) (entries (History.run h (Lru.New N))) ∧
   Lru.Len (Lru.Delete k (History.run h (Lru.New N))).1
     = Lru.Len (History.run h (Lru.New N)) - 1 ∧
   evicted (Lru.Delete k (History.run h (Lru.New N))).1.1
     = evicted (History.run h (Lru.New N)).1 ++
       (if onEvicted (c (History.run h (Lru.New N)).2) then [(k, Value r)] else []) ∧
   Lru.Delete k (Lru.Delete k (History.run h (Lru.New N))).1
     = ((Lru.Delete k (History.run h (Lru.New N))).1, None)).
Proof.
  set (s := History.run h (Lru.New N)).
  assert (Hwf : wf s) by apply LruInv.wf_run, LruInv.wf_New.
  split_and!.
  - destruct s as [w l]. unfold Lru.Delete. by destruct (Core.delete k w (c l)).
  - intros Hk. rewrite (LoadFacts.Delete_absent k s Hk). split; [done|].
    cbn [fst]. by apply LoadFacts.Delete_absent.
  - intros r (e & Hk & Hr)%LoadFacts.live_record_Some.
    destruct (LoadFacts.removeElement_live s k e r Hwf Hk Hr)
      as (HK & Hca & Hll & Hlen & Hheap & Hev).
    rewrite (LoadFacts.Delete_present k s e Hk).
    unfold Lru.Len at 1, entries at 1. cbn [fst snd c Lru.with_c].
    split_and!; [done| |done|done|].
    + rewrite Hll, <- (entries_Remove s k e Hwf Hk).
      apply Entries.map_ext_in. intros x _. by rewrite Hheap.
    + apply LoadFacts.Delete_absent. cbn [fst snd c Lru.with_c].
      rewrite Hca. apply lookup_delete_eq.
Qed.

Lemma Delete_once_witness :
  evicted (Lru.Delete "a"
             (History.run [(0, SetOnEvicted true); (0, OpStore "a" (VInt 1));
                           (1, OpStore "b" (VInt 2))] (Lru.New 2))).1.1
  = [("a", VInt 1)] ∧
  Lru.Delete "c" (History.run [(0, SetOnEvicted true); (0, OpStore "a" (VInt 1));
                               (1, OpStore "b" (VInt 2))] (Lru.New 2))
  = (History.run [(0, SetOnEvicted true); (0, OpStore "a" (VInt 1));
                  (1, OpStore "b" (VInt 2))] (Lru.New 2), None).
Proof.
  split.
  - refine (proj1 (proj2 (proj2 (proj2 (proj2 (proj2
             (Delete_once 2 [(0, SetOnEvicted true); (0, OpStore "a" (VInt 1));
                             (1, OpStore "b" (VInt 2))] "a"))
             (mkRecord 0 None "a" (VInt 1)) _))))).
    vm_compute. reflexivity.
  - refine (proj1 (proj1 (proj2 (Delete_once 2
             [(0, SetOnEvicted true); (0, OpStore "a" (VInt 1));
              (1, OpStore "b" (VInt 2))] "c")) _)).
    vm_compute. reflexivity.
Defined.

(** ** C5: a successful [Load] promotes the entry *)

Lemma Load_promotes_gen s k t r :
  wf s → live_record s k = Some r →
  (0 < ttl (c s.2) → t ≤ Exp r) →
  (Lru.Load k t s).2 = (Value r, true, None) ∧
  entries (Lru.Load k t s).1 = (k, Value r) :: filter (λ x, x.1 ≠ k) (entries s) ∧
  evicted (Lru.Load k t s).1.1 = evicted s.1.
Proof.
  intros Hwf (e & Hk & Hr)%LoadFacts.live_record_Some Hx.
  rewrite (LoadFacts.Load_hit k t s e r Hk Hr Hx).
  split_and!; [done| |done].
  unfold entries at 1. cbn [fst snd c Lru.with_c Core.with_ll ll].
  pose proof Hwf as (_ & Hm & _). destruct (Hm _ _ Hk) as (Hin & r' & Hr' & HK).
  assert (r' = r) as -> by congruence.
  unfold List_.MoveToFront. rewrite bool_decide_eq_true_2 by done.
  rewrite fmap_cons, (deref_Some _ _ _ Hr). unfold kv at 1. rewrite HK.
  f_equal. by apply entries_Remove.
Qed.

(** C5.  On any state a cache built by [New] can reach, a [Load] of a
    present key whose record is not expired returns the value with the
    flag [true] and no error and makes the entry the most recently used
    one, the others keeping their order.  In particular, with capacity 2,
    a callback and any TTL [d]: after [Store a], [Store b], a [Load a]
    that comes before the expiry of [a], and [Store c], the one call of
    the callback is for [b], and the live entries are [c] and [a]. *)
Theorem Load_promotes (N : Z) (h : list (Z * op)) (k : string) (t : Z) (r : record)
    (d t1 t2 t3 t4 : Z) (va vb vc : value) :
  (live_record (History.run h (Lru.New N)) k = Some r →
   (0 < ttl (c (History.run h (Lru.New N)).2) → t ≤ Exp r) →
   (Lru.Load k t (History.run h (Lru.New N))).2 = (Value r, true, None) ∧
   entries (Lru.Load k t (History.run h (Lru.New N))).1
     = (k, Value r) :: filter (λ x, x.1 ≠ k) (entries (History.run h (Lru.New N))) ∧
   evicted (Lru.Load k t (History.run h (Lru.New N))).1.1
     = evicted (History.run h (Lru.New N)).1) ∧
  ((0 < d → t3 ≤ t1 + d) →
   evicted (History.run [(t1, OpStore "a" va); (t2, OpStore "b" vb);
                         (t3, OpLoad "a"); (t4, OpStore "c" vc)]
                        (configure true d (Lru.New 2))).1
     = [("b", vb)] ∧
   entries (History.run [(t1, OpStore "a" va); (t2, OpStore "b" vb);
                         (t3, OpLoad "a"); (t4, OpStore "c" vc)]
                        (configure true d (Lru.New 2)))
     = [("c", vc); ("a", va)] ∧
   Lru.Keys (History.run [(t1, OpStore "a" va); (t2, OpStore "b" vb);
                          (t3, OpLoad "a"); (t4, OpStore "c" vc)]
                         (configure true d (Lru.New 2)))
     ≡ₚ ["a"; "c"]).
Proof.
  split.
  - intros Hlive Hx. apply Load_promotes_gen; [|done..].
    apply LruInv.wf_run, LruInv.wf_New.
  - intros Hx.
    change (History.run _ _) with
      (Lru.Store "c" vc t4
         (Lru.Load "a" t3
            (Lru.Store "b" vb t2
               (Lru.Store "a" va t1 (configure true d (Lru.New 2))).1).1).1).1.
    set (s2 := (Lru.Store "b" vb t2
                  (Lru.Store "a" va t1 (configure true d (Lru.New 2))).1).1).
    destruct (decide (0 < d)) as [Hd|Hd].
    + rewrite (LoadFacts.Load_hit "a" t3 s2 0%nat
                 (mkRecord (t1 + d) (Some 0%nat) "a" va)).
      * destruct d as [|p|p]; [lia| |lia]. vm_compute.
        split_and!; [done|done|]. apply Permutation_swap.
      * destruct d as [|p|p]; [lia| |lia]. reflexivity.
      * destruct d as [|p|p]; [lia| |lia]. reflexivity.
      * intros _. simpl. lia.
    + rewrite (LoadFacts.Load_hit "a" t3 s2 0%nat (mkRecord 0 None "a" va)).
      * destruct d as [|p|p]; [| lia |]; vm_compute;
          (split_and!; [done|done|]); apply Permutation_swap.
      * destruct d as [|p|p]; [| lia |]; reflexivity.
      * destruct d as [|p|p]; [| lia |]; reflexivity.
      * intros Httl. exfalso. apply Hd.
        destruct d as [|p|p]; [| lia |]; vm_compute in Httl; done.
Qed.

Lemma Load_promotes_witness :
  evicted (History.run [(0, OpStore "a" (VInt 1)); (1, OpStore "b" (VInt 2));
                        (2, OpLoad "a"); (3, OpStore "c" (VInt 3))]
                       (configure true 10 (Lru.New 2))).1
  = [("b", VInt 2)] ∧
  (Lru.Load "a" 2 (History.run [(0, SetTTL 10); (0, OpStore "a" (VInt 1));
                                (1, OpStore "b" (VInt 2))] (Lru.New 2))).2
  = (VInt 1, true, None).
Proof.
  split.
  - refine (proj1 (proj2 (Load_promotes 2 [] "a" 0 zero_record
                            10 0 1 2 3 (VInt 1) (VInt 2) (VInt 3)) _)).
    lia.
  - refine (proj1 (proj1 (Load_promotes 2
             [(0, SetTTL 10); (0, OpStore "a" (VInt 1)); (1, OpStore "b" (VInt 2))]
             "a" 2 (mkRecord 10 (Some 0%nat) "a" (VInt 1))
             0 0 0 0 0 VNil VNil VNil) _ _)).
    + vm_compute. reflexivity.
    + intros _. simpl. lia.
Defined.

(** ** C10: overwriting a key is silent *)

Lemma consistentb_sound w l m : consistentb w l m = true → consistent w l m.
Proof.
  unfold consistentb. rewrite !andb_true_iff, !forallb_forall.
  intros [[Hnd%bool_decide_eq_true Hm] Hl]. split_and!; [done|..].
  - intros k e Hk. specialize (Hm (k, e)).
    rewrite andb_true_iff, !bool_decide_eq_true in Hm. simpl in Hm.
    destruct Hm as [Hin Hr].
    { apply list_elem_of_In. by apply elem_of_map_to_list. }
    split; [done|]. destruct (heap w !! e) as [r|]; [|done].
    exists r. split; [done|]. simpl in Hr. congruence.
  - intros e Hin. specialize (Hl e). rewrite bool_decide_eq_true in Hl.
    destruct (heap w !! e) as [r|]; simpl in Hl.
    + exists r. split; [done|]. apply Hl. by apply list_elem_of_In.
    + exfalso. by discriminate Hl; apply list_elem_of_In.
Qed.

Module CacheFacts.

Lemma cache_evicted_withTTL r d now w :
  evicted (Cache.withTTL r d now w) = evicted w.
Proof. unfold Cache.withTTL. by case_bool_decide. Qed.

Lemma cache_removeElement_facts e w c :
  evicted (Cache.removeElement e w c).1 = evicted w ∧
  heap (Cache.removeElement e w c).1 = heap w ∧
  Cache.lst (Cache.removeElement e w c).2 = List_.Remove e (Cache.lst c) ∧
  Cache.items (Cache.removeElement e w c).2 = delete (Key (deref w e)) (Cache.items c) ∧
  Cache.ttl (Cache.removeElement e w c).2 = Cache.ttl c ∧
  Cache.onEvicted (Cache.removeElement e w c).2 = Cache.onEvicted c.
Proof. unfold Cache.removeElement. simpl. by destruct (timer (deref w e)). Qed.

Lemma cache_store_present k v now w c e :
  Cache.items c !! k = Some e →
  Cache.store k v now w c =
  (Cache.withTTL (length (heap w)) (Cache.ttl c) now
     (with_heap (λ h, h ++ [mkRecord 0 None k v]) (Cache.removeElement e w c).1),
   Cache.with_items <[k := length (heap w)]>
     (Cache.with_lst (List_.PushBack (length (heap w))) (Cache.removeElement e w c).2),
   length (heap w)).
Proof.
  intros Hk. unfold Cache.store. rewrite Hk.
  destruct (cache_removeElement_facts e w c) as (_ & Hh & _ & _ & Ht & _).
  destruct (Cache.removeElement e w c) as [w0 c0]. cbn [fst snd] in *.
  by rewrite Hh, Ht.
Qed.

End CacheFacts.

(** C10.  A [Store] on a key that is already present calls the callback
    for nothing and leaves the number of entries as it was, in both
    engines: [core.store] rewrites the record in place and does not touch
    the list; [cache.store] unlinks the old node through [removeElement],
    which has no callback call, and links a fresh one.  The same holds of
    [LRU.Store] as a whole on every state a cache built by [New N] with
    [N ≥ 0] can reach: there is no capacity eviction either. *)
Theorem overwrite_is_silent (k : string) (v : value) (now : Z) (e : ptr)
    (w : world) (co : core) (ca : Cache.cache) (N : Z) (h : list (Z * op)) :
  (cache co !! k = Some e →
   evicted (Core.store k v now w co).1.1 = evicted w ∧
   ll (Core.store k v now w co).1.2 = ll co) ∧
  (consistent w (Cache.lst ca) (Cache.items ca) → Cache.items ca !! k = Some e →
   evicted (Cache.store k v now w ca).1.1 = evicted w ∧
   Cache.len (Cache.store k v now w ca).1.2 = Cache.len ca) ∧
  (0 ≤ N → cache (c (History.run h (Lru.New N)).2) !! k = Some e →
   evicted (Lru.Store k v now (History.run h (Lru.New N))).1.1
     = evicted (History.run h (Lru.New N)).1 ∧
   Lru.Len (Lru.Store k v now (History.run h (Lru.New N))).1
     = Lru.Len (History.run h (Lru.New N))).
Proof.
  split_and!.
  - intros Hk. rewrite (CoreInv.store_present _ _ _ _ _ _ Hk). simpl.
    by rewrite CoreFacts.evicted_withTTL.
  - intros (Hnd & Hm & _) Hk. destruct (Hm _ _ Hk) as (Hin & _).
    rewrite (CacheFacts.cache_store_present _ _ _ _ _ _ Hk).
    destruct (CacheFacts.cache_removeElement_facts e w ca) as (Hev & _ & Hl & _).
    cbn [fst snd]. rewrite CacheFacts.cache_evicted_withTTL. split; [done|].
    unfold Cache.len, List_.Len, List_.PushBack. cbn [Cache.lst Cache.with_items Cache.with_lst].
    rewrite Hl, length_app. simpl.
    rewrite <- (ListFacts.length_Remove e _ Hnd Hin). lia.
  - intros HN Hk. set (s := History.run h (Lru.New N)) in *.
    assert (Hwf : wf s) by apply LruInv.wf_run, LruInv.wf_New.
    rewrite LruInv.Store_unfold.
    destruct (Entries.stored_present k v now s e Hwf Hk) as (_ & _ & _ & Hev).
    pose proof (LenFacts.Len_stored_present k v now s e Hwf Hk) as Hlen.
    assert (Hno : bool_decide (MaxEntries s.2 ≠ 0) &&
                  bool_decide (MaxEntries s.2 < Lru.Len (stored k v now s)) = false).
    { rewrite Hlen. unfold s. rewrite LenFacts.MaxEntries_run.
      change (MaxEntries (Lru.New N).2) with N.
      destruct (decide (N = 0)) as [->|Hne].
      - by rewrite bool_decide_eq_false_2 by (intros ?; done).
      - destruct (reachable_bounded N h) as (_ & _ & Hle); [lia|].
        rewrite (bool_decide_eq_false_2 (N < _)) by lia. apply andb_false_r. }
    by rewrite Hno.
Qed.

Lemma overwrite_is_silent_witness :
  evicted (Lru.Store "a" (VInt 9) 5
             (History.run [(0, SetOnEvicted true); (0, OpStore "a" (VInt 1));
                           (1, OpStore "b" (VInt 2))] (Lru.New 2))).1.1 = [] ∧
  Cache.len (Cache.store "a" (VInt 9) 5
               (Cache.store "a" (VInt 1) 0 Lru.empty_world
                  (Cache.mkCache [] ∅ 3 true)).1.1
               (Cache.store "a" (VInt 1) 0 Lru.empty_world
                  (Cache.mkCache [] ∅ 3 true)).1.2).1.2 = 1.
Proof.
  split.
  - refine (proj1 (proj2 (proj2 (overwrite_is_silent "a" (VInt 9) 5 0%nat
             Lru.empty_world (mkCore [] ∅ 0 false) Cache.newCache 2
             [(0, SetOnEvicted true); (0, OpStore "a" (VInt 1));
              (1, OpStore "b" (VInt 2))])) _ _)).
    + lia.
    + vm_compute. reflexivity.
  - refine (proj2 (proj1 (proj2 (overwrite_is_silent "a" (VInt 9) 5 0%nat
             (Cache.store "a" (VInt 1) 0 Lru.empty_world (Cache.mkCache [] ∅ 3 true)).1.1
             (mkCore [] ∅ 0 false)
             (Cache.store "a" (VInt 1) 0 Lru.empty_world (Cache.mkCache [] ∅ 3 true)).1.2
             0 [])) _ _)).
    + apply consistentb_sound. vm_compute. reflexivity.
    + vm_compute. reflexivity.
Defined.

(** ** C7: [update] *)

(** C7.  [cache.update] on a present key replaces the payload of its
    record and nothing else: the record keeps its key, its expiry instant
    and its timer, no timer is stopped or made, the list and the map are
    untouched, nothing is called; a [load] of the key that finds it
    unexpired then returns the element whose record holds the new value.
    On an absent key [update] leaves everything as it is: no entry, no
    change of [len], no call. *)
Theorem update_in_place (k : string) (v : value) (now : Z) (w : world)
    (ca : Cache.cache) (e : ptr) (r : record) :
  (Cache.items ca !! k = Some e → heap w !! e = Some r →
   (Cache.update k v w ca).2 = ca ∧
   heap (Cache.update k v w ca).1 !! e
     = Some (mkRecord (Exp r) (timer r) (Key r) v) ∧
   (∀ x, x ≠ e → heap (Cache.update k v w ca).1 !! x = heap w !! x) ∧
   timers (Cache.update k v w ca).1 = timers w ∧
   evicted (Cache.update k v w ca).1 = evicted w ∧
   Cache.len (Cache.update k v w ca).2 = Cache.len ca ∧
   ((0 < Cache.ttl ca → now ≤ Exp r) →
    Cache.load k now (Cache.update k v w ca).1 (Cache.update k v w ca).2
      = ((Cache.update k v w ca).1, ca, (Some e, true, None)) ∧
    Value (deref (Cache.update k v w ca).1 e) = v)) ∧
  (Cache.items ca !! k = None → Cache.update k v w ca = (w, ca)).
Proof.
  split.
  - intros Hk Hr. unfold Cache.update. rewrite Hk. cbn [fst snd].
    assert (He : heap (with_heap (alter (set_Value v) e) w) !! e
                 = Some (mkRecord (Exp r) (timer r) (Key r) v)).
    { simpl. by rewrite list_lookup_alter_eq, Hr. }
    split_and!; try done.
    + intros x Hx. simpl. by rewrite list_lookup_alter_ne.
    + intros Hx. unfold Cache.load. rewrite Hk, (deref_Some _ _ _ He). simpl.
      destruct (bool_decide (0 < Cache.ttl ca)) eqn:Hd; [|done].
      apply bool_decide_eq_true in Hd.
      by rewrite (bool_decide_eq_false_2 (Exp r < now)) by (specialize (Hx Hd); lia).
  - intros Hk. unfold Cache.update. by rewrite Hk.
Qed.

Lemma update_in_place_witness :
  heap (Cache.update "1" (VInt 0)
          (Cache.store "1" (VInt 1) 0 Lru.empty_world (Cache.mkCache [] ∅ 5 true)).1.1
          (Cache.store "1" (VInt 1) 0 Lru.empty_world (Cache.mkCache [] ∅ 5 true)).1.2).1
    !! 0%nat
  = Some (mkRecord 5 (Some 0%nat) "1" (VInt 0)) ∧
  Cache.update "2" (VInt 0) Lru.empty_world Cache.newCache
  = (Lru.empty_world, Cache.newCache).
Proof.
  split.
  - refine (proj1 (proj2 (proj1 (update_in_place "1" (VInt 0) 3
             (Cache.store "1" (VInt 1) 0 Lru.empty_world (Cache.mkCache [] ∅ 5 true)).1.1
             (Cache.store "1" (VInt 1) 0 Lru.empty_world (Cache.mkCache [] ∅ 5 true)).1.2
             0%nat (mkRecord 5 (Some 0%nat) "1" (VInt 1))) _ _))).
    + vm_compute. reflexivity.
    + vm_compute. reflexivity.
  - refine (proj2 (update_in_place "2" (VInt 0) 0 Lru.empty_world Cache.newCache
                     0%nat zero_record) _).
    vm_compute. reflexivity.
Defined.

(** ** C2: [Clear] *)

Lemma Clear_structure s :
  c (Lru.Clear s).2 = c s.2 ∧ heap (Lru.Clear s).1 = heap s.1.
Proof.
  destruct s as [w l]. unfold Lru.Clear. destruct (OnEvicted l); [|done].
  split; [done|]. apply LruInv.heap_Clear_fold.
Qed.

Lemma evicted_Clear_fold (m : list (string * ptr)) w :
  evicted (foldl (λ w' ke, let r := deref w' ke.2 in
                           call_onEvicted (Key r) (Value r) w') w m)
  = evicted w ++ ((λ ke, kv (deref w ke.2)) <$> m).
Proof.
  revert w. induction m as [|x m IH]; intros w; simpl; [by rewrite app_nil_r|].
  rewrite IH. simpl. rewrite <- app_assoc. done.
Qed.

(** Under consistency the nodes the map leads to are the linked nodes. *)
Lemma map_nodes_Permutation w l (m : gmap string ptr) :
  consistent w l m → (map_to_list m).*2 ≡ₚ l.
Proof.
  intros Hc. pose proof Hc as (Hnd & Hm & Hl).
  apply NoDup_Permutation; [|done|].
  - apply NoDup_fmap_2_strong; [|apply NoDup_map_to_list].
    intros [k1 e1] [k2 e2] H1%elem_of_map_to_list H2%elem_of_map_to_list Heq.
    simpl in Heq. subst e2. f_equal. by eapply Consistency.lookup_inj.
  - intros e. rewrite list_elem_of_fmap. split.
    + intros ([k e'] & -> & Hk%elem_of_map_to_list). by destruct (Hm _ _ Hk).
    + intros Hin. destruct (Hl e Hin) as (r & Hr & Hk).
      exists (Key r, e). split; [done|]. by apply elem_of_map_to_list.
Qed.

(** C2, on the code.  [LRU.Clear] never changes the list or the map, with
    or without a callback: after [New(1)], [Store("1", 1)] and [Clear()],
    [Len()] is still 1 and the key is still loaded.  What it does, with a
    callback, is call it once for every live entry, in some order (five
    keys stored: five calls, and the five entries stay).  [cache.clear]
    returns at once when there is no callback. *)
Theorem Clear_purges_nothing :
  (∀ s, c (Lru.Clear s).2 = c s.2 ∧ Lru.Len (Lru.Clear s) = Lru.Len s) ∧
  Lru.Len (Lru.Clear (Lru.Store "1" (VInt 1) 0 (Lru.New 1)).1) = 1 ∧
  (Lru.Load "1" 0 (Lru.Clear (Lru.Store "1" (VInt 1) 0 (Lru.New 1)).1)).2
    = (VInt 1, true, None) ∧
  (∀ N h d,
     evicted (Lru.Clear (configure true d (History.run h (Lru.New N)))).1
     ≡ₚ evicted (History.run h (Lru.New N)).1 ++ entries (History.run h (Lru.New N))) ∧
  (let s := History.run
              (History.stores [(0, ("k0", VInt 0)); (0, ("k1", VInt 1));
                               (0, ("k2", VInt 2)); (0, ("k3", VInt 3));
                               (0, ("k4", VInt 4))])
              (configure true 0 (Lru.New 20)) in
   length (evicted (Lru.Clear s).1) = 5%nat ∧ Lru.Len (Lru.Clear s) = 5) ∧
  (∀ w l m d, Cache.clear w (Cache.mkCache l m d false) = (w, Cache.mkCache l m d false)).
Proof.
  split_and!.
  - intros s. destruct (Clear_structure s) as [Hc _]. split; [done|].
    unfold Lru.Len. by rewrite Hc.
  - vm_compute. reflexivity.
  - vm_compute. reflexivity.
  - intros N h d. set (s := History.run h (Lru.New N)).
    assert (Hwf : wf s) by apply LruInv.wf_run, LruInv.wf_New.
    destruct s as [w l]. unfold Lru.Clear, configure, entries. cbn [fst snd OnEvicted c].
    rewrite evicted_Clear_fold. f_equiv.
    rewrite <- (map_nodes_Permutation _ _ _ Hwf).
    by rewrite <- list_fmap_compose.
  - vm_compute. done.
  - done.
Qed.

(** ** C9: the timer and the mutex *)

(** C9, on the code.  Every method of [LRU] touches the list and the map
    between its own [Lock] and [Unlock]; the thread of a timer that goes
    off touches them with no [Lock] at all.  So a timer can run while
    another thread holds the mutex: with TTL 5 and ["k"] stored at 0, a
    [Load] thread takes the mutex, and the timer thread, scheduled next at
    instant 10, removes the entry while the mutex is still held by the
    [Load] thread. *)
Theorem timer_thread_takes_no_lock :
  (∀ k v now, Locking.guarded false (Locking.Store k v now) = true) ∧
  (∀ k now, Locking.guarded false (Locking.Load k now) = true) ∧
  (∀ k, Locking.guarded false (Locking.Delete k) = true) ∧
  Locking.guarded false Locking.RemoveOldest = true ∧
  Locking.guarded false Locking.Len = true ∧
  Locking.guarded false Locking.Clear = true ∧
  Locking.guarded false Locking.Keys = true ∧
  (∀ r now, Locking.guarded false (Locking.timer_thread r now) = false ∧
            existsb Locking.is_Lock (Locking.timer_thread r now) = false ∧
            existsb Locking.is_Touch (Locking.timer_thread r now) = true) ∧
  (∃ cf1 cf2,
     Locking.sched 0
       (Locking.mkConfig None
          (Lru.Store "k" (VInt 7) 0 (configure true 5 (Lru.New 2))).1
          [Locking.Load "k" 3; Locking.timer_thread 0 10]) = Some cf1 ∧
     Locking.MU cf1 = Some 0%nat ∧
     Lru.Len (Locking.st cf1) = 1 ∧
     Locking.sched 1 cf1 = Some cf2 ∧
     Locking.MU cf2 = Some 0%nat ∧
     Lru.Len (Locking.st cf2) = 0 ∧
     evicted (Locking.st cf2).1 = [("k", VInt 7)]).
Proof.
  split_and!; try done.
  eexists _, _. split_and!; try reflexivity.
Qed.

(** * Further properties of [LRU] *)

(** ** [Keys] and [Len] *)

Lemma map_keys_Permutation w l (m : gmap string ptr) :
  consistent w l m →
  (map_to_list m).*1 ≡ₚ (λ e, Key (deref w e)) <$> l.
Proof.
  intros Hc. rewrite <- (map_nodes_Permutation w l m Hc).
  rewrite <- list_fmap_compose.
  assert (Heq : (map_to_list m).*1 = ((λ e, Key (deref w e)) ∘ snd) <$> map_to_list m).
  { apply list_fmap_ext. intros i [k e] Hi. simpl.
    apply list_elem_of_lookup_2, elem_of_map_to_list in Hi.
    destruct Hc as (_ & Hm & _). destruct (Hm _ _ Hi) as (_ & r & Hr & HK).
    by rewrite (deref_Some _ _ _ Hr). }
  by rewrite Heq.
Qed.

Lemma entries_keys s : (entries s).*1 = (λ e, Key (deref s.1 e)) <$> ll (c s.2).
Proof. unfold entries. by rewrite <- list_fmap_compose. Qed.


(** ** [RemoveOldest] *)

Lemma removeOldest_back s k v :
  wf s → last (entries s) = Some (k, v) →
  entries (Lru.removeOldest s) = removelast (entries s) ∧
  Lru.Len (Lru.removeOldest s) = Lru.Len s - 1 ∧
  cache (c (Lru.removeOldest s).2) = delete k (cache (c s.2)) ∧
  evicted (Lru.removeOldest s).1
    = evicted s.1 ++ (if onEvicted (c s.2) then [(k, v)] else []).
Proof.
  intros Hwf Hlast.
  destruct (Entries.removeOldest_entries s Hwf) as (Hen & Hev & Hll).
  rewrite Hen, Hev, Hlast. split_and!; [done| |  |done].
  - rewrite LenFacts.Len_removeOldest by done.
    rewrite Entries.length_entries.
    destruct (entries s); [done|]. simpl length. lia.
  - destruct s as [w l]. rewrite LruInv.removeOldest_unfold.
    unfold entries in Hlast. cbn [fst snd] in *. unfold List_.Back.
    rewrite fmap_last in Hlast.
    destruct (last (ll (c l))) as [e|] eqn:Hb; [|done].
    simpl in Hlast. injection Hlast as Hkv.
    cbn [fst snd c Lru.with_c]. rewrite CoreInv.cache_removeElement.
    unfold kv in Hkv. congruence.
Qed.

(** X2.  [RemoveOldest] on a cache with no entry changes nothing.  On a
    cache with entries it removes the least recently used one and no
    other: that entry leaves the list, its key leaves the map, [Len] drops
    by one, and the callback the engine holds, if any, is called once with
    that key and value. *)
Theorem RemoveOldest_evicts_back (N : Z) (h : list (Z * op)) (k : string) (v : value) :
  (entries (History.run h (Lru.New N)) = [] →
   Lru.RemoveOldest (History.run h (Lru.New N)) = History.run h (Lru.New N)) ∧
  (last (entries (History.run h (Lru.New N))) = Some (k, v) →
   entries (Lru.RemoveOldest (History.run h (Lru.New N)))
     = removelast (entries (History.run h (Lru.New N))) ∧
   Lru.Len (Lru.RemoveOldest (History.run h (Lru.New N)))
     = Lru.Len (History.run h (Lru.New N)) - 1 ∧
   cache (c (Lru.RemoveOldest (History.run h (Lru.New N))).2)
     = delete k (cache (c (History.run h (Lru.New N)).2)) ∧
   evicted (Lru.RemoveOldest (History.run h (Lru.New N))).1
     = evicted (History.run h (Lru.New N)).1 ++
       (if onEvicted (c (History.run h (Lru.New N)).2) then [(k, v)] else [])).
Proof.
  set (s := History.run h (Lru.New N)).
  assert (Hwf : wf s) by apply LruInv.wf_run, LruInv.wf_New.
  split.
  - intros He. unfold Lru.RemoveOldest. destruct s as [w l].
    rewrite LruInv.removeOldest_unfold. unfold entries in He. cbn [fst snd] in He.
    apply fmap_nil_inv in He. by rewrite He.
  - intros Hlast. by apply removeOldest_back.
Qed.

Lemma RemoveOldest_evicts_back_witness :
  evicted (Lru.RemoveOldest
             (History.run [(0, SetOnEvicted true); (0, OpStore "a" (VInt 1));
                           (1, OpStore "b" (VInt 2))] (Lru.New 0))).1
  = [("a", VInt 1)] ∧
  Lru.RemoveOldest (History.run [(0, OpDelete "a")] (Lru.New 3))
  = History.run [(0, OpDelete "a")] (Lru.New 3).
Proof.
  split.
  - refine (proj2 (proj2 (proj2 (proj2 (RemoveOldest_evicts_back 0
             [(0, SetOnEvicted true); (0, OpStore "a" (VInt 1));
              (1, OpStore "b" (VInt 2))] "a" (VInt 1)) _)))).
    vm_compute. reflexivity.
  - refine (proj1 (RemoveOldest_evicts_back 3 [(0, OpDelete "a")] "a" VNil) _).
    vm_compute. reflexivity.
Defined.

Lemma drain_wf n s : wf s → wf (drain n s).
Proof.
  intros Hwf. induction n as [|n IH]; [done|].
  simpl. by apply LruInv.wf_removeOldest.
Qed.

Lemma drain_succ n s : drain (S n) s = drain n (Lru.RemoveOldest s).
Proof. unfold drain. by rewrite Nat.iter_succ_r. Qed.

Lemma drain_order n s :
  wf s →
  order (drain n s) = drop n (order s) ∧
  evicted (drain n s).1
    = evicted s.1 ++ (if onEvicted (c s.2) then take n (order s) else []).
Proof.
  revert s. induction n as [|n IH]; intros s Hwf.
  - simpl. rewrite drop_0, take_0. by destruct (onEvicted (c s.2)); rewrite app_nil_r.
  - rewrite drain_succ.
    destruct (IH (Lru.RemoveOldest s)) as [Ho He]; [by apply LruInv.wf_removeOldest|].
    destruct (Entries.removeOldest_entries s Hwf) as (Hen & Hev & _).
    destruct (StoreFacts.config_removeOldest s) as (_ & Hon & _).
    unfold Lru.RemoveOldest in *. rewrite Ho, He, Hon, Hev.
    unfold order. rewrite Hen, EvictionOrder.reverse_removelast, drop_drop.
    split; [done|].
    destruct (onEvicted (c s.2)); [|by rewrite !app_nil_r].
    rewrite <- app_assoc, EvictionOrder.last_reverse. f_equal.
    apply (take_take_drop (reverse (entries s)) 1 n).
Qed.

(** X3.  Calling [RemoveOldest] [n] times removes the [n] least recently
    used entries, oldest first: the callback the engine holds, if any, is
    called for them in that order, and the others stay in their order.
    With [n] at least [Len] the cache ends up empty. *)
Theorem RemoveOldest_drains_in_order (N : Z) (h : list (Z * op)) (n : nat) :
  order (drain n (History.run h (Lru.New N))) = drop n (order (History.run h (Lru.New N))) ∧
  evicted (drain n (History.run h (Lru.New N))).1
    = evicted (History.run h (Lru.New N)).1 ++
      (if onEvicted (c (History.run h (Lru.New N)).2)
       then take n (order (History.run h (Lru.New N))) else []) ∧
  (Lru.Len (History.run h (Lru.New N)) ≤ Z.of_nat n →
   Lru.Len (drain n (History.run h (Lru.New N))) = 0 ∧
   Lru.Keys (drain n (History.run h (Lru.New N))) = []).
Proof.
  set (s := History.run h (Lru.New N)).
  assert (Hwf : wf s) by apply LruInv.wf_run, LruInv.wf_New.
  destruct (drain_order n s Hwf) as [Ho He]. split_and!; [done|done|].
  intros Hle. rewrite EvictionOrder.length_order in Hle.
  rewrite drop_ge in Ho by lia.
  assert (Hlen : Lru.Len (drain n s) = 0).
  { by rewrite EvictionOrder.length_order, Ho. }
  split; [done|].
  pose proof (drain_wf n s Hwf) as Hwf'.
  assert (Hp : Lru.Keys (drain n s) ≡ₚ (entries (drain n s)).*1).
  { rewrite entries_keys. by apply map_keys_Permutation. }
  unfold order in Ho. apply (f_equal reverse) in Ho.
  rewrite reverse_involutive in Ho. rewrite Ho in Hp.
  by apply Permutation_nil_r in Hp.
Qed.

Lemma RemoveOldest_drains_in_order_witness :
  Lru.Keys (drain 5 (History.run [(0, OpStore "a" (VInt 1)); (1, OpStore "b" (VInt 2))]
                                 (Lru.New 0))) = [].
Proof.
  refine (proj2 (proj2 (proj2 (RemoveOldest_drains_in_order 0
           [(0, OpStore "a" (VInt 1)); (1, OpStore "b" (VInt 2))] 5)) _)).
  vm_compute. congruence.
Defined.

(** ** [Store], in full *)

Lemma filter_not_live s k :
  wf s → cache (c s.2) !! k = None →
  filter (λ x : string * value, x.1 ≠ k) (entries s) = entries s.
Proof.
  intros Hwf Hk.
  assert (Hn : k ∉ (entries s).*1).
  { rewrite <- (EvictionOrder.live_keys s k Hwf), Hk. by intros [? ?]. }
  induction (entries s) as [|x l IH]; [done|].
  rewrite fmap_cons in Hn. apply not_elem_of_cons in Hn as [Hx Hl].
  rewrite filter_cons_True by (intros Heq; by apply Hx). by rewrite IH.
Qed.

Lemma removelast_take {A} (l : list A) :
  removelast l = take (length l - 1) l ∧
  option_list (last l) = drop (length l - 1) l.
Proof.
  destruct l as [|x l] using rev_ind; [done|].
  rewrite removelast_last, last_snoc, length_app. simpl.
  replace (length l + 1 - 1)%nat with (length l) by lia.
  by rewrite take_app_length, drop_app_length.
Qed.

(** The state [Store] reaches before its capacity check: the pair at the
    front, the other entries behind it in their order. *)
Lemma stored_entries k v now s :
  wf s →
  entries (stored k v now s) = (k, v) :: filter (λ x, x.1 ≠ k) (entries s) ∧
  evicted (stored k v now s).1 = evicted s.1.
Proof.
  intros Hwf. destruct (cache (c s.2) !! k) as [e|] eqn:Hk.
  - destruct (Entries.stored_present k v now s e Hwf Hk) as (_ & _ & -> & ->).
    by rewrite (entries_Remove s k e Hwf Hk).
  - destruct (Entries.stored_absent k v now s Hwf Hk) as (_ & _ & -> & ->).
    by rewrite (filter_not_live s k Hwf Hk).
Qed.

(** X5.  What [Store] does to the entries, on every state a cache built
    by [New N] with [N ≥ 0] can reach: the stored pair comes first, the
    other entries follow in the order they had (an older entry of the same
    key is gone), and with a capacity [N > 0] only the first [N] are kept;
    the callback, if [OnEvicted] is set, is called for what was cut off
    and for nothing else.  With [N = 0] nothing is ever cut off. *)
Theorem Store_front_and_truncate (N : Z) (h : list (Z * op))
    (k : string) (v : value) (now : Z) :
  0 ≤ N →
  entries (Lru.Store k v now (History.run h (Lru.New N))).1
    = (if bool_decide (N = 0)
       then (k, v) :: filter (λ x, x.1 ≠ k) (entries (History.run h (Lru.New N)))
       else take (Z.to_nat N)
              ((k, v) :: filter (λ x, x.1 ≠ k) (entries (History.run h (Lru.New N))))) ∧
  evicted (Lru.Store k v now (History.run h (Lru.New N))).1.1
    = evicted (History.run h (Lru.New N)).1 ++
      (if OnEvicted (History.run h (Lru.New N)).2 && negb (bool_decide (N = 0))
       then drop (Z.to_nat N)
              ((k, v) :: filter (λ x, x.1 ≠ k) (entries (History.run h (Lru.New N))))
       else []).
Proof.
  intros HN. set (s := History.run h (Lru.New N)).
  assert (Hwf : wf s) by apply LruInv.wf_run, LruInv.wf_New.
  assert (HM : MaxEntries s.2 = N) by (unfold s; by rewrite LenFacts.MaxEntries_run).
  destruct (stored_entries k v now s Hwf) as [Hen Hev].
  set (l := (k, v) :: filter (λ x : string * value, x.1 ≠ k) (entries s)) in *.
  rewrite LruInv.Store_unfold, HM.
  destruct (decide (N = 0)) as [H0|H0].
  - rewrite (bool_decide_eq_true_2 (N = 0)) by done.
    rewrite (bool_decide_eq_false_2 (N ≠ 0)) by (intros Hne; by apply Hne).
    cbn [andb negb]. rewrite Hen, Hev, andb_false_r. by rewrite app_nil_r.
  - rewrite (bool_decide_eq_false_2 (N = 0)) by done.
    rewrite (bool_decide_eq_true_2 (N ≠ 0)) by done. cbn [andb negb].
    rewrite andb_true_r.
    destruct (reachable_bounded N h) as (_ & _ & Hle); [lia|]. fold s in Hle.
    assert (Hlen : Lru.Len (stored k v now s) = Z.of_nat (length l))
      by by rewrite Entries.length_entries, Hen.
    assert (Hl : (length l ≤ Z.to_nat N + 1)%nat).
    { destruct (cache (c s.2) !! k) as [e|] eqn:Hk.
      - rewrite (LenFacts.Len_stored_present _ _ _ _ _ Hwf Hk) in Hlen. lia.
      - rewrite (LenFacts.Len_stored_absent _ _ _ _ Hwf Hk) in Hlen. lia. }
    rewrite Hlen. destruct (decide (N < Z.of_nat (length l))) as [Hov|Hov].
    + rewrite (bool_decide_eq_true_2 _ Hov).
      destruct (Entries.removeOldest_entries (stored k v now s)) as (-> & -> & _);
        [by apply LruInv.wf_stored|].
      destruct (StoreFacts.config_stored k v now s) as (_ & -> & _).
      rewrite Hen, Hev. destruct (removelast_take l) as [-> ->].
      by replace (length l - 1)%nat with (Z.to_nat N) by lia.
    + rewrite (bool_decide_eq_false_2 _ Hov).
      rewrite Hen, Hev, take_ge, drop_ge by lia.
      by destruct (OnEvicted s.2); rewrite app_nil_r.
Qed.

Lemma Store_front_and_truncate_witness :
  entries (Lru.Store "b" (VInt 9) 7
             (History.run [(0, OpStore "a" (VInt 1)); (1, OpStore "b" (VInt 2));
                           (2, OpStore "c" (VInt 3))] (Lru.New 3))).1
  = [("b", VInt 9); ("c", VInt 3); ("a", VInt 1)].
Proof.
  refine (proj1 (Store_front_and_truncate 3
           [(0, OpStore "a" (VInt 1)); (1, OpStore "b" (VInt 2));
            (2, OpStore "c" (VInt 3))] "b" (VInt 9) 7 _)).
  lia.
Defined.

(** ** [Store] and then [Load] *)

Lemma MoveToFront_head e (tl : list ptr) :
  NoDup (e :: tl) → List_.MoveToFront e (e :: tl) = e :: tl.
Proof.
  intros [He _]%NoDup_cons. unfold List_.MoveToFront.
  rewrite bool_decide_eq_true_2 by by left.
  by rewrite ListFacts.Remove_cons_eq, ListFacts.Remove_notin.
Qed.

(** X4.  On every state a cache built by [New N] with [N ≥ 0] can reach,
    a key that was just stored is loaded back: with no TTL ([d ≤ 0]) at any
    instant whatever, with a TTL [d > 0] at any instant up to [t0 + d].
    [Load] returns the stored value, the flag [true] and no error, and
    since the key is already the most recently used one it leaves the
    whole state as it is. *)
Theorem Store_then_Load (N : Z) (h : list (Z * op)) (b : bool) (d t0 t : Z)
    (k : string) (v : value) :
  0 ≤ N → (0 < d → t ≤ t0 + d) →
  Lru.Load k t (Lru.Store k v t0 (configure b d (History.run h (Lru.New N)))).1
  = ((Lru.Store k v t0 (configure b d (History.run h (Lru.New N)))).1,
     (v, true, None)).
Proof.
  intros HN Hx. set (s := configure b d (History.run h (Lru.New N))).
  assert (Hwf : wf s) by apply wf_configure, LruInv.wf_run, LruInv.wf_New.
  destruct (StoreFacts.Store_post k v t0 s Hwf) as (e & r & tl & Hll & Hk & Hr & Hkv & HE).
  { change (MaxEntries s.2) with (MaxEntries (History.run h (Lru.New N)).2).
    by rewrite LenFacts.MaxEntries_run. }
  destruct (config_Store k v t0 s) as [Ht _].
  pose proof (LruInv.wf_Store k v t0 s Hwf) as (Hnd & _).
  set (s1 := (Lru.Store k v t0 s).1) in *.
  rewrite (LoadFacts.Load_hit k t s1 e r Hk Hr).
  - unfold kv in Hkv. injection Hkv as _ ->.
    f_equal. destruct s1 as [w1 [M O T [l1 m1 t1 o1]]]. cbn [fst snd] in *.
    unfold Lru.with_c, Core.with_ll. cbn [c ll cache ttl onEvicted MaxEntries OnEvicted TTL] in *.
    rewrite Hll. rewrite MoveToFront_head; [done|]. by rewrite <- Hll.
  - rewrite Ht. intros Hd. change (TTL s.2) with d in *. rewrite (HE Hd).
    specialize (Hx Hd). lia.
Qed.

Lemma Store_then_Load_witness :
  (Lru.Load "k" 1000
     (Lru.Store "k" (VInt 7) 0 (configure false 0 (History.run [] (Lru.New 1)))).1).2
  = (VInt 7, true, None).
Proof.
  refine (f_equal snd (Store_then_Load 1 [] false 0 0 1000 "k" (VInt 7) _ _)); lia.
Defined.

(** ** A negative capacity *)

Lemma Len_nonneg s : 0 ≤ Lru.Len s.
Proof. unfold Lru.Len, List_.Len. lia. Qed.

Lemma empty_no_key s k : wf s → Lru.Len s = 0 → cache (c s.2) !! k = None.
Proof.
  intros Hwf Hlen. apply eq_None_not_Some. rewrite (EvictionOrder.live_keys s k Hwf).
  rewrite Entries.length_entries in Hlen.
  destruct (entries s); [|simpl in Hlen; lia]. by intros ?%elem_of_nil.
Qed.

Lemma negative_Store k v now s :
  wf s → MaxEntries s.2 < 0 → Lru.Len s = 0 →
  entries (Lru.Store k v now s).1 = [] ∧
  evicted (Lru.Store k v now s).1.1
    = evicted s.1 ++ (if OnEvicted s.2 then [(k, v)] else []).
Proof.
  intros Hwf HM Hlen. rewrite LruInv.Store_unfold.
  pose proof (Len_nonneg (stored k v now s)).
  rewrite (bool_decide_eq_true_2 (MaxEntries s.2 ≠ 0)) by lia.
  rewrite (bool_decide_eq_true_2 (MaxEntries s.2 < _)) by lia. cbn [andb].
  destruct (Entries.removeOldest_entries (stored k v now s)) as (-> & -> & _);
    [by apply LruInv.wf_stored|].
  destruct (StoreFacts.config_stored k v now s) as (_ & -> & _).
  destruct (stored_entries k v now s Hwf) as [-> ->].
  rewrite Entries.length_entries in Hlen.
  destruct (entries s); [done|simpl in Hlen; lia].
Qed.

Lemma negative_run h s :
  wf s → MaxEntries s.2 < 0 → Lru.Len s = 0 → Lru.Len (History.run h s) = 0.
Proof.
  revert s. induction h as [|[t o] h IH]; intros s Hwf HM Hlen; [done|].
  simpl. apply IH.
  - by apply LruInv.wf_step.
  - by rewrite LenFacts.MaxEntries_step.
  - pose proof (Len_nonneg (History.step t o s)).
    destruct o; simpl in *; try done.
    + destruct (negative_Store key v t s Hwf HM Hlen) as [He _].
      by rewrite Entries.length_entries, He.
    + pose proof (LenFacts.Len_Load key t s Hwf). lia.
    + pose proof (LenFacts.Len_Delete key s). lia.
    + unfold Lru.RemoveOldest in *. rewrite LenFacts.Len_removeOldest by done. lia.
    + by rewrite LenFacts.Len_Clear.
    + pose proof (LenFacts.Len_fire t0 t s). lia.
Qed.

(** X7.  A cache built by [New N] with [N < 0] never holds an entry:
    after any history [Len] is 0, and a [Store] unlinks at once the very
    entry it has just linked, calling the callback, if [OnEvicted] is set,
    with the pair that was stored; a [Load] of that key right after is a
    miss. *)
Theorem negative_capacity_holds_nothing (N : Z) (h : list (Z * op))
    (k : string) (v : value) (now t : Z) :
  N < 0 →
  Lru.Len (History.run h (Lru.New N)) = 0 ∧
  entries (Lru.Store k v now (History.run h (Lru.New N))).1 = [] ∧
  evicted (Lru.Store k v now (History.run h (Lru.New N))).1.1
    = evicted (History.run h (Lru.New N)).1 ++
      (if OnEvicted (History.run h (Lru.New N)).2 then [(k, v)] else []) ∧
  (Lru.Load k t (Lru.Store k v now (History.run h (Lru.New N))).1).2
    = (VNil, false, None).
Proof.
  intros HN. set (s := History.run h (Lru.New N)).
  assert (Hwf : wf s) by apply LruInv.wf_run, LruInv.wf_New.
  assert (HM : MaxEntries s.2 < 0).
  { unfold s. rewrite LenFacts.MaxEntries_run. done. }
  assert (Hlen : Lru.Len s = 0).
  { apply negative_run; [apply LruInv.wf_New|done|done]. }
  destruct (negative_Store k v now s Hwf HM Hlen) as [He Hev].
  split_and!; [done|done|done|].
  rewrite LoadFacts.Load_miss; [done|].
  apply empty_no_key; [by apply LruInv.wf_Store|].
  by rewrite Entries.length_entries, He.
Qed.

Lemma negative_capacity_holds_nothing_witness :
  (Lru.Load "k" 0 (Lru.Store "k" (VInt 1) 0 (History.run [] (Lru.New (-1)))).1).2
  = (VNil, false, None).
Proof.
  refine (proj2 (proj2 (proj2 (negative_capacity_holds_nothing (-1) [] "k" (VInt 1) 0 0 _)))).
  lia.
Defined.

(** ** The closure of a timer *)

(** X9.  The closure [func() { c.load(r.Key) }] of a timer, run on a state
    a cache built by [New] can reach, looks the key of its record up
    afresh.  If the key is no longer in the map, or if the record the map
    has for it now is not expired, it changes nothing at all (it does not
    promote the entry either).  If that record is expired, the entry is
    removed and the callback the engine holds, if any, is called once with
    the key and the current value; the other entries keep their order. *)
Theorem trigger_checks_the_live_record (N : Z) (h : list (Z * op))
    (r : ptr) (now : Z) (r' : record) :
  (cache (c (History.run h (Lru.New N)).2)
     !! Key (deref (History.run h (Lru.New N)).1 r) = None →
   History.trigger r now (History.run h (Lru.New N)) = History.run h (Lru.New N)) ∧
  (live_record (History.run h (Lru.New N))
     (Key (deref (History.run h (Lru.New N)).1 r)) = Some r' →
   (0 < ttl (c (History.run h (Lru.New N)).2) → now ≤ Exp r') →
   History.trigger r now (History.run h (Lru.New N)) = History.run h (Lru.New N)) ∧
  (live_record (History.run h (Lru.New N))
     (Key (deref (History.run h (Lru.New N)).1 r)) = Some r' →
   0 < ttl (c (History.run h (Lru.New N)).2) → Exp r' < now →
   entries (History.trigger r now (History.run h (Lru.New N)))
     = filter (λ x, x.1 ≠ Key (deref (History.run h (Lru.New N)).1 r))
         (entries (History.run h (Lru.New N))) ∧
   cache (c (History.trigger r now (History.run h (Lru.New N))).2)
     = delete (Key (deref (History.run h (Lru.New N)).1 r))
         (cache (c (History.run h (Lru.New N)).2)) ∧
   evicted (History.trigger r now (History.run h (Lru.New N))).1
     = evicted (History.run h (Lru.New N)).1 ++
       (if onEvicted (c (History.run h (Lru.New N)).2)
        then [(Key (deref (History.run h (Lru.New N)).1 r), Value r')] else [])).
Proof.
  set (s := History.run h (Lru.New N)).
  assert (Hwf : wf s) by apply LruInv.wf_run, LruInv.wf_New.
  set (k := Key (deref s.1 r)).
  split_and!.
  - intros Hk. destruct s as [w l]. unfold History.trigger, Core.load.
    cbn [fst snd] in *. fold k. rewrite Hk. by rewrite LoadFacts.with_c_id.
  - intros (e & Hk & Hr)%LoadFacts.live_record_Some Hx.
    destruct s as [w l]. unfold History.trigger, Core.load.
    cbn [fst snd] in *. fold k. rewrite Hk, (deref_Some _ _ _ Hr).
    destruct (bool_decide (0 < ttl (c l))) eqn:Hd; cbn [andb].
    + apply bool_decide_eq_true in Hd.
      rewrite (bool_decide_eq_false_2 (Exp r' < now)) by (specialize (Hx Hd); lia).
      by rewrite LoadFacts.with_c_id.
    + by rewrite LoadFacts.with_c_id.
  - intros (e & Hk & Hr)%LoadFacts.live_record_Some Hd Hx.
    destruct (LoadFacts.removeElement_live s k e r' Hwf Hk Hr)
      as (HK & Hca & Hll & Hlen & Hheap & Hev).
    pose proof (entries_Remove s k e Hwf Hk) as HeR.
    destruct s as [w l]. unfold History.trigger, Core.load.
    cbn [fst snd] in *. fold k. rewrite Hk, (deref_Some _ _ _ Hr).
    rewrite (bool_decide_eq_true_2 (0 < ttl (c l))) by done.
    rewrite (bool_decide_eq_true_2 (Exp r' < now)) by done. cbn [andb].
    destruct (Core.removeElement e w (c l)) as [w1 c1] eqn:Hrm.
    cbn [fst snd] in *. unfold entries at 1. cbn [fst snd c Lru.with_c].
    split_and!; [|done|done].
    rewrite Hll, <- HeR. apply Entries.map_ext_in. intros x _. by rewrite Hheap.
Qed.

Lemma trigger_checks_the_live_record_witness :
  evicted (History.trigger 0 6
             (History.run [(0, SetTTL 5); (0, SetOnEvicted true);
                           (0, OpStore "k" (VInt 7))] (Lru.New 2))).1
  = [("k", VInt 7)] ∧
  History.trigger 0 6
    (History.run [(0, SetTTL 5); (0, OpStore "k" (VInt 7)); (3, OpStore "k" (VInt 8))]
                 (Lru.New 2))
  = History.run [(0, SetTTL 5); (0, OpStore "k" (VInt 7)); (3, OpStore "k" (VInt 8))]
                (Lru.New 2) ∧
  History.trigger 0 6
    (History.run [(0, SetTTL 5); (0, OpStore "k" (VInt 7)); (1, OpDelete "k")]
                 (Lru.New 2))
  = History.run [(0, SetTTL 5); (0, OpStore "k" (VInt 7)); (1, OpDelete "k")]
                (Lru.New 2).
Proof.
  split_and!.
  - refine (proj2 (proj2 (proj2 (proj2 (trigger_checks_the_live_record 2
             [(0, SetTTL 5); (0, SetOnEvicted true); (0, OpStore "k" (VInt 7))]
             0 6 (mkRecord 5 (Some 0%nat) "k" (VInt 7)))) _ _ _))).
    + vm_compute. reflexivity.
    + vm_compute. reflexivity.
    + simpl. lia.
  - refine (proj1 (proj2 (trigger_checks_the_live_record 2
             [(0, SetTTL 5); (0, OpStore "k" (VInt 7)); (3, OpStore "k" (VInt 8))]
             0 6 (mkRecord 8 (Some 1%nat) "k" (VInt 8)))) _ _).
    + vm_compute. reflexivity.
    + intros _. simpl. lia.
  - refine (proj1 (trigger_checks_the_live_record 2
             [(0, SetTTL 5); (0, OpStore "k" (VInt 7)); (1, OpDelete "k")]
             0 6 zero_record) _).
    vm_compute. reflexivity.
Defined.

(** ** The timers [Store] makes *)

Lemma withTTL_timers r d now w x :
  0 < d → heap w !! r = Some x →
  timers (Core.withTTL r d now w)
    = stop_old (timer x) (timers w) ++ [mkTimer r (now + d) true] ∧
  heap (Core.withTTL r d now w) !! r
    = Some (mkRecord (now + d) (Some (length (timers w))) (Key x) (Value x)).
Proof.
  intros Hd Hx. unfold Core.withTTL. rewrite (deref_Some _ _ _ Hx).
  rewrite bool_decide_eq_true_2 by done.
  destruct (timer x) as [t|]; simpl.
  - by rewrite list_lookup_alter_eq, Hx, length_alter.
  - by rewrite list_lookup_alter_eq, Hx.
Qed.

Lemma timers_removeElement e w co :
  timers (Core.removeElement e w co).1 = timers w.
Proof. unfold Core.removeElement. by destruct (onEvicted co). Qed.

(** The capacity check of [Store] touches neither the records nor the
    timers, and adds no key to the map. *)
Lemma Store_world k v now s :
  heap (Lru.Store k v now s).1.1 = heap (stored k v now s).1 ∧
  timers (Lru.Store k v now s).1.1 = timers (stored k v now s).1 ∧
  (∀ k' e, cache (c (Lru.Store k v now s).1.2) !! k' = Some e →
           cache (c (stored k v now s).2) !! k' = Some e).
Proof.
  rewrite LruInv.Store_unfold. destruct (_ && _); [|done].
  destruct (stored k v now s) as [w l]. rewrite LruInv.removeOldest_unfold.
  destruct (List_.Back (ll (c l))) as [e|]; [|done]. cbn [fst snd c Lru.with_c].
  rewrite CoreInv.heap_removeElement, timers_removeElement, CoreInv.cache_removeElement.
  split_and!; [done|done|].
  by intros k' e' [_ ?]%lookup_delete_Some.
Qed.

Lemma stored_timer k v now s :
  wf s → 0 < TTL s.2 →
  ∃ e x,
    cache (c (stored k v now s).2) !! k = Some e ∧
    heap (stored k v now s).1 !! e
      = Some (mkRecord (now + TTL s.2) (Some (length (timers s.1))) k x) ∧
    timers (stored k v now s).1
      = stop_old (live_record s k ≫= timer) (timers s.1)
        ++ [mkTimer e (now + TTL s.2) true].
Proof.
  intros Hwf Hd. destruct s as [w l]. unfold stored, live_record. cbn [fst snd] in *.
  destruct (cache (c l) !! k) as [e|] eqn:Hk.
  - assert (Hk' : cache (c (Lru.set l)) !! k = Some e) by done.
    rewrite (CoreInv.store_present _ _ _ _ _ _ Hk'). cbn [fst snd].
    destruct Hwf as (_ & Hm & _). destruct (Hm _ _ Hk) as (_ & x & Hx & HK).
    cbn [fst snd] in *.
    destruct (withTTL_timers e (TTL l) now (with_heap (alter (set_Value v) e) w)
                (set_Value v x)) as [Ht Hh]; [done| |].
    { simpl. by rewrite list_lookup_alter_eq, Hx. }
    exists e, v. split_and!.
    + done.
    + cbn [c Lru.set ttl Lru.with_c]. rewrite Hh. simpl. by rewrite HK.
    + cbn [c Lru.set ttl Lru.with_c]. rewrite Ht. simpl. by rewrite Hx.
  - assert (Hk' : cache (c (Lru.set l)) !! k = None) by done.
    rewrite (CoreInv.store_absent _ _ _ _ _ Hk'). cbn [fst snd].
    destruct (withTTL_timers (length (heap w)) (TTL l) now
                (with_heap (λ h, h ++ [mkRecord 0 None k v]) w)
                (mkRecord 0 None k v)) as [Ht Hh]; [done| |].
    { simpl. by rewrite lookup_app_r, Nat.sub_diag. }
    exists (length (heap w)), v. split_and!.
    + simpl. by rewrite lookup_insert_eq.
    + cbn [c Lru.set ttl Lru.with_c]. by rewrite Hh.
    + cbn [c Lru.set ttl Lru.with_c]. by rewrite Ht.
Qed.

(** X8.  With a TTL [d > 0], a [Store] at [t0] on any state a cache built
    by [New N] with [N ≥ 0] can reach leaves the record of the key with
    the expiry instant [t0 + d] and with a timer of its own that is
    pending and due at [t0 + d]; the timer the record of that key had
    before, if any, is stopped, and every other timer is as it was. *)
Theorem Store_schedules_expiry (N : Z) (h : list (Z * op)) (b : bool) (d t0 : Z)
    (k : string) (v : value) :
  0 ≤ N → 0 < d →
  (∃ e r t,
     cache (c (Lru.Store k v t0 (configure b d (History.run h (Lru.New N)))).1.2) !! k
       = Some e ∧
     heap (Lru.Store k v t0 (configure b d (History.run h (Lru.New N)))).1.1 !! e
       = Some r ∧
     Exp r = t0 + d ∧ timer r = Some t ∧
     timers (Lru.Store k v t0 (configure b d (History.run h (Lru.New N)))).1.1 !! t
       = Some (mkTimer e (t0 + d) true)) ∧
  (∀ r0 t' o,
     live_record (History.run h (Lru.New N)) k = Some r0 → timer r0 = Some t' →
     timers (History.run h (Lru.New N)).1 !! t' = Some o →
     timers (Lru.Store k v t0 (configure b d (History.run h (Lru.New N)))).1.1 !! t'
       = Some (mkTimer (t_rec o) (t_due o) false)) ∧
  (∀ t' o,
     timers (History.run h (Lru.New N)).1 !! t' = Some o →
     (live_record (History.run h (Lru.New N)) k ≫= timer) ≠ Some t' →
     timers (Lru.Store k v t0 (configure b d (History.run h (Lru.New N)))).1.1 !! t'
       = Some o).
Proof.
  intros HN Hd. set (s0 := History.run h (Lru.New N)).
  set (s := configure b d s0).
  assert (Hwf : wf s) by apply wf_configure, LruInv.wf_run, LruInv.wf_New.
  destruct (StoreFacts.Store_post k v t0 s Hwf) as (e & r & tl & _ & Hk & Hr & _ & _).
  { change (MaxEntries s.2) with (MaxEntries s0.2).
    unfold s0. by rewrite LenFacts.MaxEntries_run. }
  destruct (Store_world k v t0 s) as (Hheap & Htim & Hca).
  destruct (stored_timer k v t0 s Hwf Hd) as (e' & x & Hk' & Hr' & Ht).
  pose proof (Hca _ _ Hk) as Hk2. assert (e' = e) as -> by congruence.
  rewrite Hheap in Hr. rewrite Hr' in Hr. injection Hr as <-.
  change (TTL s.2) with d in *. change (timers s.1) with (timers s0.1) in *.
  change (live_record s k) with (live_record s0 k) in *.
  rewrite Htim, Ht.
  split_and!.
  - exists e, (mkRecord (t0 + d) (Some (length (timers s0.1))) k x), (length (timers s0.1)).
    split_and!; try done.
    + by rewrite Hheap.
    + rewrite lookup_app_r; [|by destruct (live_record s0 k ≫= timer); simpl; rewrite ?length_alter].
      replace (length (timers s0.1) - length (stop_old _ (timers s0.1)))%nat with 0%nat; [done|].
      destruct (live_record s0 k ≫= timer); simpl; rewrite ?length_alter; lia.
  - intros r0 t' o Hl Ht' Ho. rewrite Hl. simpl. rewrite Ht'. simpl.
    apply lookup_app_l_Some. by rewrite list_lookup_alter_eq, Ho.
  - intros t' o Ho Hne. apply lookup_app_l_Some.
    destruct (live_record s0 k ≫= timer) as [t''|]; simpl; [|done].
    rewrite list_lookup_alter_ne; [done|]. congruence.
Qed.

Lemma Store_schedules_expiry_witness :
  timers (Lru.Store "k" (VInt 8) 3
            (configure false 5
               (History.run [(0, SetTTL 5); (0, OpStore "k" (VInt 7))] (Lru.New 2)))).1.1
    !! 0%nat
  = Some (mkTimer 0 5 false).
Proof.
  refine (proj1 (proj2 (Store_schedules_expiry 2
           [(0, SetTTL 5); (0, OpStore "k" (VInt 7))] false 5 3 "k" (VInt 8) _ _))
           (mkRecord 5 (Some 0%nat) "k" (VInt 7)) 0%nat (mkTimer 0 5 true) _ _ _).
  - lia.
  - lia.
  - vm_compute. reflexivity.
  - reflexivity.
  - vm_compute. reflexivity.
Defined.

(** * The engine [cache] *)

Module CacheInv.

(** The engine seen as a state of the list-and-map kind the lemmas on
    entries are stated for. *)
Lemma entries_Remove_gen w (l : list ptr) (m : gmap string ptr) k e :
  consistent w l m → m !! k = Some e →
  (λ x, kv (deref w x)) <$> List_.Remove e l
  = filter (λ x : string * value, x.1 ≠ k) ((λ x, kv (deref w x)) <$> l).
Proof.
  intros Hc Hk.
  exact (entries_Remove (w, mkLRU 0 false 0 (mkCore l m 0 false)) k e Hc Hk).
Qed.

Lemma filter_not_live_gen w (l : list ptr) (m : gmap string ptr) k :
  consistent w l m → m !! k = None →
  filter (λ x : string * value, x.1 ≠ k) ((λ x, kv (deref w x)) <$> l)
  = (λ x, kv (deref w x)) <$> l.
Proof.
  intros Hc Hk.
  exact (filter_not_live (w, mkLRU 0 false 0 (mkCore l m 0 false)) k Hc Hk).
Qed.

Lemma withTTL_kv r d now w e :
  kv <$> heap (Cache.withTTL r d now w) !! e = kv <$> heap w !! e.
Proof.
  unfold Cache.withTTL. case_bool_decide; [|done]. simpl.
  by rewrite lookup_alter_kv.
Qed.

Lemma removeElement_timers e w c :
  timers (Cache.removeElement e w c).1 = stop_old (timer (deref w e)) (timers w).
Proof. unfold Cache.removeElement. simpl. by destruct (timer (deref w e)). Qed.

Lemma cache_removeElement_consistent e w c :
  consistent w (Cache.lst c) (Cache.items c) → e ∈ Cache.lst c →
  consistent (Cache.removeElement e w c).1
             (Cache.lst (Cache.removeElement e w c).2)
             (Cache.items (Cache.removeElement e w c).2).
Proof.
  intros Hc Hin.
  destruct (CacheFacts.cache_removeElement_facts e w c) as (_ & Hh & -> & -> & _).
  eapply Consistency.frame; [|by apply Consistency.remove].
  intros x. by rewrite Hh.
Qed.

(** [evict] is [removeElement] and then one call of the callback. *)
Lemma evict_facts e w c :
  (Cache.evict e w c).2 = (Cache.removeElement e w c).2 ∧
  heap (Cache.evict e w c).1 = heap w ∧
  timers (Cache.evict e w c).1 = stop_old (timer (deref w e)) (timers w) ∧
  evicted (Cache.evict e w c).1
    = evicted w ++ (if Cache.onEvicted c then [kv (deref w e)] else []).
Proof.
  unfold Cache.evict.
  destruct (CacheFacts.cache_removeElement_facts e w c) as (Hev & Hh & _ & _ & _ & Ho).
  pose proof (removeElement_timers e w c) as Ht.
  destruct (Cache.removeElement e w c) as [w1 c1]. cbn [fst snd] in *.
  assert (Hd : deref w1 e = deref w e) by (unfold deref; by rewrite Hh).
  rewrite Hd, Ho. destruct (Cache.onEvicted c); simpl.
  - by rewrite Hh, Ht, Hev.
  - by rewrite Hh, Ht, Hev, app_nil_r.
Qed.

Lemma evict_consistent e w c :
  consistent w (Cache.lst c) (Cache.items c) → e ∈ Cache.lst c →
  consistent (Cache.evict e w c).1
             (Cache.lst (Cache.evict e w c).2)
             (Cache.items (Cache.evict e w c).2).
Proof.
  intros Hc Hin. destruct (evict_facts e w c) as (-> & Hh & _).
  eapply Consistency.frame; [|by apply cache_removeElement_consistent].
  intros x. destruct (CacheFacts.cache_removeElement_facts e w c) as (_ & Hh' & _).
  by rewrite Hh, Hh'.
Qed.

(** What evicting the node of a live key leaves. *)
Lemma evict_live k e r w c :
  consistent w (Cache.lst c) (Cache.items c) →
  Cache.items c !! k = Some e → heap w !! e = Some r →
  Cache.items (Cache.evict e w c).2 = delete k (Cache.items c) ∧
  Cache.lst (Cache.evict e w c).2 = List_.Remove e (Cache.lst c) ∧
  Cache.len (Cache.evict e w c).2 = Cache.len c - 1 ∧
  Cache.ttl (Cache.evict e w c).2 = Cache.ttl c ∧
  Cache.onEvicted (Cache.evict e w c).2 = Cache.onEvicted c ∧
  heap (Cache.evict e w c).1 = heap w ∧
  timers (Cache.evict e w c).1 = stop_old (timer r) (timers w) ∧
  evicted (Cache.evict e w c).1
    = evicted w ++ (if Cache.onEvicted c then [(k, Value r)] else []).
Proof.
  intros (Hnd & Hm & _) Hk Hr. destruct (Hm _ _ Hk) as (Hin & r' & Hr' & HK).
  assert (r' = r) as -> by congruence.
  destruct (evict_facts e w c) as (-> & Hh & Ht & Hev).
  destruct (CacheFacts.cache_removeElement_facts e w c) as (_ & _ & Hl & Hi & Httl & Ho).
  rewrite Hl, Hi, Httl, Ho, Hh, Ht, Hev, (deref_Some _ _ _ Hr), HK.
  split_and!; try done.
  - unfold Cache.len, List_.Len. rewrite Hl.
    rewrite <- (ListFacts.length_Remove e _ Hnd Hin). lia.
  - unfold kv. by rewrite HK.
Qed.

(** The state of [store] before it links the fresh node. *)
Lemma store_eq k v now w c :
  Cache.store k v now w c =
  (Cache.withTTL
     (length (heap w))
     (Cache.ttl c) now
     (with_heap (λ h, h ++ [mkRecord 0 None k v])
        (match Cache.items c !! k with
         | Some e => Cache.removeElement e w c
         | None => (w, c)
         end).1),
   Cache.with_items <[k := length (heap w)]>
     (Cache.with_lst (List_.PushBack (length (heap w)))
        (match Cache.items c !! k with
         | Some e => Cache.removeElement e w c
         | None => (w, c)
         end).2),
   length (heap w)).
Proof.
  destruct (Cache.items c !! k) as [e|] eqn:Hk.
  - by rewrite (CacheFacts.cache_store_present _ _ _ _ _ _ Hk).
  - unfold Cache.store. by rewrite Hk.
Qed.

Lemma pre_store k w c :
  consistent w (Cache.lst c) (Cache.items c) →
  consistent (match Cache.items c !! k with
              | Some e => Cache.removeElement e w c
              | None => (w, c)
              end).1
             (Cache.lst (match Cache.items c !! k with
                         | Some e => Cache.removeElement e w c
                         | None => (w, c)
                         end).2)
             (Cache.items (match Cache.items c !! k with
                           | Some e => Cache.removeElement e w c
                           | None => (w, c)
                           end).2) ∧
  Cache.items (match Cache.items c !! k with
               | Some e => Cache.removeElement e w c
               | None => (w, c)
               end).2 = delete k (Cache.items c) ∧
  heap (match Cache.items c !! k with
        | Some e => Cache.removeElement e w c
        | None => (w, c)
        end).1 = heap w ∧
  (λ x, kv (deref w x)) <$>
    Cache.lst (match Cache.items c !! k with
               | Some e => Cache.removeElement e w c
               | None => (w, c)
               end).2
  = filter (λ x : string * value, x.1 ≠ k) ((λ x, kv (deref w x)) <$> Cache.lst c).
Proof.
  intros Hc. destruct (Cache.items c !! k) as [e|] eqn:Hk.
  - pose proof Hc as (_ & Hm & _). destruct (Hm _ _ Hk) as (Hin & r & Hr & HK).
    destruct (CacheFacts.cache_removeElement_facts e w c) as (_ & Hh & Hl & Hi & _).
    split_and!.
    + by apply cache_removeElement_consistent.
    + by rewrite Hi, (deref_Some _ _ _ Hr), HK.
    + done.
    + rewrite Hl. by apply (entries_Remove_gen w _ (Cache.items c)).
  - cbn [fst snd]. split_and!; [done| |done|].
    + by rewrite delete_id.
    + symmetry. by apply (filter_not_live_gen w _ (Cache.items c)).
Qed.

Lemma cache_store_consistent k v now w c :
  consistent w (Cache.lst c) (Cache.items c) →
  consistent (Cache.store k v now w c).1.1
             (Cache.lst (Cache.store k v now w c).1.2)
             (Cache.items (Cache.store k v now w c).1.2).
Proof.
  intros Hc. rewrite store_eq. cbn [fst snd].
  destruct (pre_store k w c Hc) as (Hc0 & Hi & Hh & _).
  set (p := match Cache.items c !! k with
            | Some e => Cache.removeElement e w c
            | None => (w, c)
            end) in *.
  eapply Consistency.frame; [apply withTTL_kv|].
  rewrite <- Hh.
  apply (Consistency.push p.1 (Cache.lst p.2) (Cache.items p.2) (mkRecord 0 None k v) Hc0).
  simpl. rewrite Hi. apply lookup_delete_eq.
Qed.

Lemma update_consistent k v w c :
  consistent w (Cache.lst c) (Cache.items c) →
  consistent (Cache.update k v w c).1
             (Cache.lst (Cache.update k v w c).2)
             (Cache.items (Cache.update k v w c).2).
Proof.
  intros Hc. unfold Cache.update. destruct (Cache.items c !! k) as [e|]; [|done].
  eapply Consistency.frame_Key; [|done]. intros x. simpl.
  apply CoreInv.Key_set_Value.
Qed.

Lemma cache_load_consistent k now w c :
  consistent w (Cache.lst c) (Cache.items c) →
  consistent (Cache.load k now w c).1.1
             (Cache.lst (Cache.load k now w c).1.2)
             (Cache.items (Cache.load k now w c).1.2).
Proof.
  intros Hc. unfold Cache.load. destruct (Cache.items c !! k) as [e|] eqn:Hk; [|done].
  destruct (_ && _); [|done].
  pose proof (evict_consistent e w c Hc) as He.
  destruct (Cache.evict e w c) as [w1 c1]. apply He.
  destruct Hc as (_ & Hm & _). by destruct (Hm _ _ Hk).
Qed.

Lemma cache_delete_consistent k w c :
  consistent w (Cache.lst c) (Cache.items c) →
  consistent (Cache.delete k w c).1
             (Cache.lst (Cache.delete k w c).2)
             (Cache.items (Cache.delete k w c).2).
Proof.
  intros Hc. unfold Cache.delete. destruct (Cache.items c !! k) as [e|] eqn:Hk; [|done].
  apply evict_consistent; [done|].
  destruct Hc as (_ & Hm & _). by destruct (Hm _ _ Hk).
Qed.

End CacheInv.

Module CacheClear.

(** The loop of [clear], over any part of the map that is still there. *)
Lemma loop (L : list (string * ptr)) w c :
  NoDup L.*1 →
  consistent w (Cache.lst c) (Cache.items c) →
  (∀ k e, (k, e) ∈ L → Cache.items c !! k = Some e) →
  consistent
    (foldl (λ (wc : world * Cache.cache) (ke : string * ptr),
              if bool_decide (is_Some (Cache.items wc.2 !! ke.1))
              then Cache.evict ke.2 wc.1 wc.2 else wc) (w, c) L).1
    (Cache.lst (foldl (λ (wc : world * Cache.cache) (ke : string * ptr),
              if bool_decide (is_Some (Cache.items wc.2 !! ke.1))
              then Cache.evict ke.2 wc.1 wc.2 else wc) (w, c) L).2)
    (Cache.items (foldl (λ (wc : world * Cache.cache) (ke : string * ptr),
              if bool_decide (is_Some (Cache.items wc.2 !! ke.1))
              then Cache.evict ke.2 wc.1 wc.2 else wc) (w, c) L).2) ∧
  (∀ k, Cache.items (foldl (λ (wc : world * Cache.cache) (ke : string * ptr),
              if bool_decide (is_Some (Cache.items wc.2 !! ke.1))
              then Cache.evict ke.2 wc.1 wc.2 else wc) (w, c) L).2 !! k
        = if bool_decide (k ∈ L.*1) then None else Cache.items c !! k) ∧
  heap (foldl (λ (wc : world * Cache.cache) (ke : string * ptr),
              if bool_decide (is_Some (Cache.items wc.2 !! ke.1))
              then Cache.evict ke.2 wc.1 wc.2 else wc) (w, c) L).1 = heap w ∧
  evicted (foldl (λ (wc : world * Cache.cache) (ke : string * ptr),
              if bool_decide (is_Some (Cache.items wc.2 !! ke.1))
              then Cache.evict ke.2 wc.1 wc.2 else wc) (w, c) L).1
    = evicted w ++
      (if Cache.onEvicted c then (λ ke, kv (deref w ke.2)) <$> L else []).
Proof.
  revert w c. induction L as [|[k e] L IH]; intros w c Hnd Hc HL.
  - simpl. split_and!; [done|done|done|].
    by destruct (Cache.onEvicted c); rewrite app_nil_r.
  - rewrite fmap_cons in Hnd. apply NoDup_cons in Hnd as [Hk Hnd].
    assert (Hke : Cache.items c !! k = Some e) by (apply HL; by left).
    pose proof Hc as (_ & Hm & _). destruct (Hm _ _ Hke) as (Hin & r & Hr & HK).
    destruct (CacheInv.evict_live k e r w c Hc Hke Hr)
      as (Hi & Hl & _ & _ & Ho & Hh & _ & Hev).
    pose proof (CacheInv.evict_consistent e w c Hc Hin) as Hc1.
    simpl foldl. cbn [fst snd].
    rewrite (bool_decide_eq_true_2 (is_Some (Cache.items c !! k))) by by rewrite Hke.
    destruct (Cache.evict e w c) as [w1 c1] eqn:Hev1. cbn [fst snd] in *.
    destruct (IH w1 c1 Hnd Hc1) as (Hc' & Hi' & Hh' & Hev').
    { intros k' e' Hin'. rewrite Hi. rewrite lookup_delete_ne; [apply HL; by right|].
      intros <-. apply Hk. apply list_elem_of_fmap. by exists (k, e'). }
    split_and!; [done| | |].
    + intros k'. rewrite Hi', Hi, fmap_cons. cbn [fst].
      destruct (decide (k' = k)) as [->|Hne].
      * rewrite (bool_decide_eq_true_2 (k ∈ k :: L.*1)) by by left.
        rewrite lookup_delete_eq. by case_bool_decide.
      * rewrite lookup_delete_ne by done.
        case_bool_decide as H1; case_bool_decide as H2; try done.
        -- exfalso. apply H2. by right.
        -- exfalso. apply elem_of_cons in H2 as [?|?]; done.
    + by rewrite Hh', Hh.
    + rewrite Hev', Hev, Ho. destruct (Cache.onEvicted c); [|by rewrite !app_nil_r].
      rewrite <- app_assoc, fmap_cons. cbn [snd]. f_equal.
      rewrite (deref_Some _ _ _ Hr). unfold kv at 2. rewrite HK. simpl. f_equal.
      apply list_fmap_ext. intros i x _. unfold deref. by rewrite Hh.
Qed.

(** [clear] with a callback: the map and the list end up empty. *)
Lemma clear_with_callback w c :
  Cache.onEvicted c = true →
  consistent w (Cache.lst c) (Cache.items c) →
  Cache.items (Cache.clear w c).2 = ∅ ∧
  Cache.lst (Cache.clear w c).2 = [] ∧
  heap (Cache.clear w c).1 = heap w ∧
  evicted (Cache.clear w c).1 ≡ₚ evicted w ++ ((λ e, kv (deref w e)) <$> Cache.lst c).
Proof.
  intros Hon Hc. unfold Cache.clear. rewrite Hon. cbn [negb].
  destruct (loop (map_to_list (Cache.items c)) w c) as (Hc' & Hi & Hh & Hev).
  - apply NoDup_fst_map_to_list.
  - done.
  - intros k e. apply elem_of_map_to_list.
  - match goal with |- context [foldl ?f (w, c) ?L] =>
      set (wc' := foldl f (w, c) L) in * end.
    assert (Hempty : Cache.items wc'.2 = ∅).
    { apply map_eq. intros k. rewrite Hi, lookup_empty.
      case_bool_decide as Hk; [done|].
      destruct (Cache.items c !! k) as [e|] eqn:Hke; [|done].
      exfalso. apply Hk. apply list_elem_of_fmap. exists (k, e).
      split; [done|]. by apply elem_of_map_to_list. }
    split_and!; [done| |done|].
    + destruct Hc' as (_ & _ & Hl).
      destruct (Cache.lst wc'.2) as [|e l]; [done|].
      destruct (Hl e) as (r & _ & Hk); [by left|].
      rewrite Hempty, lookup_empty in Hk. done.
    + rewrite Hev, Hon. f_equiv.
      rewrite <- (map_nodes_Permutation w _ _ Hc).
      by rewrite <- list_fmap_compose.
Qed.

Lemma clear_consistent w c :
  consistent w (Cache.lst c) (Cache.items c) →
  consistent (Cache.clear w c).1
             (Cache.lst (Cache.clear w c).2)
             (Cache.items (Cache.clear w c).2).
Proof.
  intros Hc. destruct (Cache.onEvicted c) eqn:Hon.
  - destruct (clear_with_callback w c Hon Hc) as (-> & -> & _).
    split_and!; [apply NoDup_nil_2|..].
    + intros k e Hk. by rewrite lookup_empty in Hk.
    + intros e He. by apply elem_of_nil in He.
  - unfold Cache.clear. by rewrite Hon.
Qed.

End CacheClear.

Module CacheRun.

Lemma cache_wf_step now o wc :
  consistent wc.1 (Cache.lst wc.2) (Cache.items wc.2) →
  consistent (CacheHistory.step now o wc).1
             (Cache.lst (CacheHistory.step now o wc).2)
             (Cache.items (CacheHistory.step now o wc).2).
Proof.
  intros Hc. destruct o; simpl; try done.
  - by apply CacheInv.cache_store_consistent.
  - by apply CacheInv.update_consistent.
  - by apply CacheInv.cache_load_consistent.
  - by apply CacheInv.cache_delete_consistent.
  - by apply CacheClear.clear_consistent.
  - by apply CacheInv.cache_load_consistent.
Qed.

Lemma wf_init :
  consistent CacheHistory.init.1 (Cache.lst CacheHistory.init.2)
             (Cache.items CacheHistory.init.2).
Proof.
  split_and!; [apply NoDup_nil_2|..].
  - intros k e Hk. cbn in Hk. by rewrite lookup_empty in Hk.
  - intros e He. cbn in He. by apply elem_of_nil in He.
Qed.

Lemma cache_wf_run h wc :
  consistent wc.1 (Cache.lst wc.2) (Cache.items wc.2) →
  consistent (CacheHistory.run h wc).1
             (Cache.lst (CacheHistory.run h wc).2)
             (Cache.items (CacheHistory.run h wc).2).
Proof.
  revert wc. induction h as [|e h IH]; intros wc Hc; [done|].
  simpl. apply IH. by apply cache_wf_step.
Qed.

Lemma wf_reachable h :
  consistent (CacheHistory.run h CacheHistory.init).1
             (Cache.lst (CacheHistory.run h CacheHistory.init).2)
             (Cache.items (CacheHistory.run h CacheHistory.init).2).
Proof. apply cache_wf_run, wf_init. Qed.

Lemma withTTL_record r d now w x :
  heap w !! r = Some x →
  ∃ y, heap (Cache.withTTL r d now w) !! r = Some y ∧ kv y = kv x ∧
       (0 < d → Exp y = now + d) ∧ (¬ 0 < d → y = x).
Proof.
  intros Hx. unfold Cache.withTTL. case_bool_decide as Hd.
  - simpl. rewrite list_lookup_alter_eq, Hx. simpl. eexists. split; [done|].
    split_and!; [done|done|]. intros Hn. by destruct Hn.
  - exists x. split_and!; [done|done| |done]. intros Hn. by destruct Hd.
Qed.

(** What [store] leaves: the old node of the key unlinked, a fresh node
    at the back with the pair, nothing called. *)
Lemma store_post k v now w c :
  consistent w (Cache.lst c) (Cache.items c) →
  (Cache.store k v now w c).2 = length (heap w) ∧
  Cache.items (Cache.store k v now w c).1.2 !! k = Some (length (heap w)) ∧
  (∃ y, heap (Cache.store k v now w c).1.1 !! length (heap w) = Some y ∧
        kv y = (k, v) ∧
        (0 < Cache.ttl c → Exp y = now + Cache.ttl c)) ∧
  Cache.ttl (Cache.store k v now w c).1.2 = Cache.ttl c ∧
  Cache.onEvicted (Cache.store k v now w c).1.2 = Cache.onEvicted c ∧
  CacheHistory.entries (Cache.store k v now w c).1
    = filter (λ x : string * value, x.1 ≠ k) (CacheHistory.entries (w, c)) ++ [(k, v)] ∧
  evicted (Cache.store k v now w c).1.1 = evicted w.
Proof.
  intros Hc. rewrite CacheInv.store_eq. cbn [fst snd].
  destruct (CacheInv.pre_store k w c Hc) as (Hc0 & Hi & Hh & Hen).
  assert (Hcfg : Cache.ttl (match Cache.items c !! k with
                            | Some e => Cache.removeElement e w c
                            | None => (w, c) end).2 = Cache.ttl c ∧
                 Cache.onEvicted (match Cache.items c !! k with
                                  | Some e => Cache.removeElement e w c
                                  | None => (w, c) end).2 = Cache.onEvicted c ∧
                 evicted (match Cache.items c !! k with
                          | Some e => Cache.removeElement e w c
                          | None => (w, c) end).1 = evicted w).
  { destruct (Cache.items c !! k) as [e|]; [|done].
    by destruct (CacheFacts.cache_removeElement_facts e w c) as (-> & _ & _ & _ & -> & ->). }
  destruct Hcfg as (Httl & Hon & Hev).
  set (p := match Cache.items c !! k with
            | Some e => Cache.removeElement e w c
            | None => (w, c)
            end) in *.
  destruct (withTTL_record (length (heap w)) (Cache.ttl c) now
              (with_heap (λ h, h ++ [mkRecord 0 None k v]) p.1) (mkRecord 0 None k v))
    as (y & Hy & Hkv & HE & _).
  { simpl. by rewrite Hh, lookup_app_r, Nat.sub_diag. }
  split_and!; try done.
  - simpl. by rewrite lookup_insert_eq.
  - exists y. by split_and!.
  - unfold CacheHistory.entries. cbn [fst snd Cache.lst Cache.with_items Cache.with_lst].
    unfold List_.PushBack. rewrite fmap_app, <- Hen. f_equal.
    + apply Entries.map_ext_in. intros x Hx. rewrite CacheInv.withTTL_kv. simpl.
      rewrite Hh, lookup_app_l; [done|].
      rewrite <- Hh. by eapply Consistency.valid_ptr.
    + simpl. by rewrite (deref_Some _ _ _ Hy), Hkv.
  - by rewrite CacheFacts.cache_evicted_withTTL.
Qed.

End CacheRun.


(** X10.  With a callback, [cache.clear] on any state the engine can
    reach empties the engine: the map and the list end up empty, [len] is
    0, [keys] is empty, and the callback has been called once for every
    entry that was live, in some order. *)
Theorem cache_clear_empties (h : list (Z * cache_op)) :
  Cache.items (Cache.clear (CacheHistory.run h CacheHistory.init).1
                 (Cache.mkCache (Cache.lst (CacheHistory.run h CacheHistory.init).2)
                    (Cache.items (CacheHistory.run h CacheHistory.init).2)
                    (Cache.ttl (CacheHistory.run h CacheHistory.init).2) true)).2 = ∅ ∧
  Cache.len (Cache.clear (CacheHistory.run h CacheHistory.init).1
               (Cache.mkCache (Cache.lst (CacheHistory.run h CacheHistory.init).2)
                  (Cache.items (CacheHistory.run h CacheHistory.init).2)
                  (Cache.ttl (CacheHistory.run h CacheHistory.init).2) true)).2 = 0 ∧
  Cache.keys (Cache.clear (CacheHistory.run h CacheHistory.init).1
                (Cache.mkCache (Cache.lst (CacheHistory.run h CacheHistory.init).2)
                   (Cache.items (CacheHistory.run h CacheHistory.init).2)
                   (Cache.ttl (CacheHistory.run h CacheHistory.init).2) true)).2 = [] ∧
  evicted (Cache.clear (CacheHistory.run h CacheHistory.init).1
             (Cache.mkCache (Cache.lst (CacheHistory.run h CacheHistory.init).2)
                (Cache.items (CacheHistory.run h CacheHistory.init).2)
                (Cache.ttl (CacheHistory.run h CacheHistory.init).2) true)).1
    ≡ₚ evicted (CacheHistory.run h CacheHistory.init).1 ++
       CacheHistory.entries (CacheHistory.run h CacheHistory.init).
Proof.
  set (wc := CacheHistory.run h CacheHistory.init).
  pose proof (CacheRun.wf_reachable h) as Hc. fold wc in Hc.
  destruct (CacheClear.clear_with_callback wc.1
              (Cache.mkCache (Cache.lst wc.2) (Cache.items wc.2) (Cache.ttl wc.2) true))
    as (Hi & Hl & _ & Hev); [done|done|].
  split_and!; [done| | |done].
  - unfold Cache.len. by rewrite Hl.
  - unfold Cache.keys. rewrite Hi. by rewrite map_to_list_empty.
Qed.

Lemma stop_old_not_pending (r : record) (w w' : world) :
  timers w' = stop_old (timer r) (timers w) →
  CacheHistory.timer_pending w' r = false.
Proof.
  intros Ht. unfold CacheHistory.timer_pending. rewrite Ht.
  destruct (timer r) as [t|]; [|done]. simpl.
  rewrite list_lookup_alter_eq. by destruct (timers w !! t).
Qed.

(** X12.  [cache.delete] on any state the engine can reach: on an absent
    key it changes nothing, so that repeating it changes nothing either.
    On a present key it unlinks that entry and no other, [len] drops by
    one, the timer of the record is stopped, and the callback, if the
    engine has one, is called once with the key and the value; the key is
    absent afterwards. *)
Theorem cache_delete_once (h : list (Z * cache_op)) (k : string) (e : ptr) (r : record) :
  (Cache.items (CacheHistory.run h CacheHistory.init).2 !! k = None →
   Cache.delete k (CacheHistory.run h CacheHistory.init).1
                  (CacheHistory.run h CacheHistory.init).2
   = CacheHistory.run h CacheHistory.init) ∧
  (Cache.items (CacheHistory.run h CacheHistory.init).2 !! k = Some e →
   heap (CacheHistory.run h CacheHistory.init).1 !! e = Some r →
   Cache.items (Cache.delete k (CacheHistory.run h CacheHistory.init).1
                               (CacheHistory.run h CacheHistory.init).2).2
     = delete k (Cache.items (CacheHistory.run h CacheHistory.init).2) ∧
   CacheHistory.entries (Cache.delete k (CacheHistory.run h CacheHistory.init).1
                                        (CacheHistory.run h CacheHistory.init).2)
     = filter (λ x, x.1 ≠ k) (CacheHistory.entries (CacheHistory.run h CacheHistory.init)) ∧
   Cache.len (Cache.delete k (CacheHistory.run h CacheHistory.init).1
                             (CacheHistory.run h CacheHistory.init).2).2
     = Cache.len (CacheHistory.run h CacheHistory.init).2 - 1 ∧
   CacheHistory.timer_pending
     (Cache.delete k (CacheHistory.run h CacheHistory.init).1
                     (CacheHistory.run h CacheHistory.init).2).1 r = false ∧
   evicted (Cache.delete k (CacheHistory.run h CacheHistory.init).1
                           (CacheHistory.run h CacheHistory.init).2).1
     = evicted (CacheHistory.run h CacheHistory.init).1 ++
       (if Cache.onEvicted (CacheHistory.run h CacheHistory.init).2
        then [(k, Value r)] else [])).
Proof.
  set (wc := CacheHistory.run h CacheHistory.init).
  pose proof (CacheRun.wf_reachable h) as Hc. fold wc in Hc.
  split.
  - intros Hk. unfold Cache.delete. rewrite Hk. by destruct wc.
  - intros Hk Hr. unfold Cache.delete. rewrite Hk.
    destruct (CacheInv.evict_live k e r wc.1 wc.2 Hc Hk Hr)
      as (Hi & Hl & Hlen & _ & _ & Hh & Ht & Hev).
    split_and!; [done| |done| |done].
    + unfold CacheHistory.entries. rewrite Hl.
      rewrite <- (CacheInv.entries_Remove_gen wc.1 _ (Cache.items wc.2) k e Hc Hk).
      apply Entries.map_ext_in. intros x _. by rewrite Hh.
    + by eapply stop_old_not_pending.
Qed.

Lemma cache_delete_once_witness :
  evicted (Cache.delete "a"
             (CacheHistory.run [(0, CSetTTL 5); (0, CSetOnEvicted true);
                                (0, CStore "a" (VInt 1)); (1, CStore "b" (VInt 2))]
                               CacheHistory.init).1
             (CacheHistory.run [(0, CSetTTL 5); (0, CSetOnEvicted true);
                                (0, CStore "a" (VInt 1)); (1, CStore "b" (VInt 2))]
                               CacheHistory.init).2).1
  = [("a", VInt 1)] ∧
  Cache.delete "z" (CacheHistory.run [(0, CStore "a" (VInt 1))] CacheHistory.init).1
                   (CacheHistory.run [(0, CStore "a" (VInt 1))] CacheHistory.init).2
  = CacheHistory.run [(0, CStore "a" (VInt 1))] CacheHistory.init.
Proof.
  split.
  - refine (proj2 (proj2 (proj2 (proj2 (proj2 (cache_delete_once
             [(0, CSetTTL 5); (0, CSetOnEvicted true);
              (0, CStore "a" (VInt 1)); (1, CStore "b" (VInt 2))]
             "a" 0%nat (mkRecord 5 (Some 0%nat) "a" (VInt 1))) _ _))))).
    + vm_compute. reflexivity.
    + vm_compute. reflexivity.
  - refine (proj1 (cache_delete_once [(0, CStore "a" (VInt 1))] "z" 0%nat zero_record) _).
    vm_compute. reflexivity.
Defined.

(** X13.  [cache.store] and then [cache.load], on any state the engine
    can reach.  [store] unlinks the old node of the key, if there is one,
    links a fresh node with the pair at the back of the list, and calls
    nothing.  A [load] of the key at an instant at which the entry is not
    expired (no TTL, or not after [t0 + ttl]) returns that fresh element,
    whose record holds the stored value, with the flag [true] and no
    error, and changes nothing.  A [load] strictly after [t0 + ttl]
    returns the element with the flag [true] and [ErrCachedExp], removes
    the key, and calls the callback, if any, once with the pair. *)
Theorem cache_store_then_load (h : list (Z * cache_op))
    (k : string) (v : value) (t0 t : Z) :
  CacheHistory.entries
    (Cache.store k v t0 (CacheHistory.run h CacheHistory.init).1
                        (CacheHistory.run h CacheHistory.init).2).1
    = filter (λ x, x.1 ≠ k) (CacheHistory.entries (CacheHistory.run h CacheHistory.init))
      ++ [(k, v)] ∧
  evicted (Cache.store k v t0 (CacheHistory.run h CacheHistory.init).1
                              (CacheHistory.run h CacheHistory.init).2).1.1
    = evicted (CacheHistory.run h CacheHistory.init).1 ∧
  ((0 < Cache.ttl (CacheHistory.run h CacheHistory.init).2 →
    t ≤ t0 + Cache.ttl (CacheHistory.run h CacheHistory.init).2) →
   Cache.load k t
     (Cache.store k v t0 (CacheHistory.run h CacheHistory.init).1
                         (CacheHistory.run h CacheHistory.init).2).1.1
     (Cache.store k v t0 (CacheHistory.run h CacheHistory.init).1
                         (CacheHistory.run h CacheHistory.init).2).1.2
   = ((Cache.store k v t0 (CacheHistory.run h CacheHistory.init).1
                          (CacheHistory.run h CacheHistory.init).2).1,
      (Some (Cache.store k v t0 (CacheHistory.run h CacheHistory.init).1
                                (CacheHistory.run h CacheHistory.init).2).2,
       true, None)) ∧
   Value (deref (Cache.store k v t0 (CacheHistory.run h CacheHistory.init).1
                                    (CacheHistory.run h CacheHistory.init).2).1.1
                (Cache.store k v t0 (CacheHistory.run h CacheHistory.init).1
                                    (CacheHistory.run h CacheHistory.init).2).2) = v) ∧
  (0 < Cache.ttl (CacheHistory.run h CacheHistory.init).2 →
   t0 + Cache.ttl (CacheHistory.run h CacheHistory.init).2 < t →
   (Cache.load k t
      (Cache.store k v t0 (CacheHistory.run h CacheHistory.init).1
                          (CacheHistory.run h CacheHistory.init).2).1.1
      (Cache.store k v t0 (CacheHistory.run h CacheHistory.init).1
                          (CacheHistory.run h CacheHistory.init).2).1.2).2
   = (Some (Cache.store k v t0 (CacheHistory.run h CacheHistory.init).1
                               (CacheHistory.run h CacheHistory.init).2).2,
      true, Some ErrCachedExp) ∧
   Cache.items
     (Cache.load k t
        (Cache.store k v t0 (CacheHistory.run h CacheHistory.init).1
                            (CacheHistory.run h CacheHistory.init).2).1.1
        (Cache.store k v t0 (CacheHistory.run h CacheHistory.init).1
                            (CacheHistory.run h CacheHistory.init).2).1.2).1.2 !! k
   = None ∧
   evicted
     (Cache.load k t
        (Cache.store k v t0 (CacheHistory.run h CacheHistory.init).1
                            (CacheHistory.run h CacheHistory.init).2).1.1
        (Cache.store k v t0 (CacheHistory.run h CacheHistory.init).1
                            (CacheHistory.run h CacheHistory.init).2).1.2).1.1
   = evicted (CacheHistory.run h CacheHistory.init).1 ++
     (if Cache.onEvicted (CacheHistory.run h CacheHistory.init).2
      then [(k, v)] else [])).
Proof.
  set (wc := CacheHistory.run h CacheHistory.init).
  pose proof (CacheRun.wf_reachable h) as Hc. fold wc in Hc.
  destruct (CacheRun.store_post k v t0 wc.1 wc.2 Hc)
    as (He & Hk & (y & Hy & Hkv & HE) & Httl & Hon & Hen & Hev).
  pose proof (CacheInv.cache_store_consistent k v t0 wc.1 wc.2 Hc) as Hc1.
  replace (wc.1, wc.2) with wc in Hen by by destruct wc.
  set (st := Cache.store k v t0 wc.1 wc.2) in *.
  rewrite He in *.
  assert (HV : Value y = v) by (unfold kv in Hkv; congruence).
  split_and!; [done|done| |].
  - intros Hx. split; [|by rewrite (deref_Some _ _ _ Hy)].
    unfold Cache.load. rewrite Hk, (deref_Some _ _ _ Hy), Httl.
    destruct (bool_decide (0 < Cache.ttl wc.2)) eqn:Hd; cbn [andb].
    + apply bool_decide_eq_true in Hd.
      rewrite (bool_decide_eq_false_2 (Exp y < t))
        by (rewrite (HE Hd); specialize (Hx Hd); lia).
      by destruct st as [[? ?] ?].
    + by destruct st as [[? ?] ?].
  - intros Hd Hx. unfold Cache.load. rewrite Hk, (deref_Some _ _ _ Hy), Httl.
    rewrite (bool_decide_eq_true_2 (0 < Cache.ttl wc.2)) by done.
    rewrite (bool_decide_eq_true_2 (Exp y < t)) by (rewrite (HE Hd); lia).
    cbn [andb].
    destruct (CacheInv.evict_live k (length (heap wc.1)) y st.1.1 st.1.2 Hc1 Hk Hy)
      as (Hi & _ & _ & _ & _ & _ & _ & Hev2).
    destruct (Cache.evict (length (heap wc.1)) st.1.1 st.1.2) as [w2 c2].
    cbn [fst snd] in *. rewrite Hi, Hev2, Hon, Hev, HV.
    split_and!; [done| |done]. apply lookup_delete_eq.
Qed.

Lemma cache_store_then_load_witness :
  (Cache.load "k" 6
     (Cache.store "k" (VInt 7) 0
        (CacheHistory.run [(0, CSetTTL 5)] CacheHistory.init).1
        (CacheHistory.run [(0, CSetTTL 5)] CacheHistory.init).2).1.1
     (Cache.store "k" (VInt 7) 0
        (CacheHistory.run [(0, CSetTTL 5)] CacheHistory.init).1
        (CacheHistory.run [(0, CSetTTL 5)] CacheHistory.init).2).1.2).2
  = (Some 0%nat, true, Some ErrCachedExp) ∧
  Value (deref (Cache.store "k" (VInt 7) 0
                  (CacheHistory.run [(0, CSetTTL 5)] CacheHistory.init).1
                  (CacheHistory.run [(0, CSetTTL 5)] CacheHistory.init).2).1.1
               (Cache.store "k" (VInt 7) 0
                  (CacheHistory.run [(0, CSetTTL 5)] CacheHistory.init).1
                  (CacheHistory.run [(0, CSetTTL 5)] CacheHistory.init).2).2)
  = VInt 7.
Proof.
  split.
  - refine (proj1 (proj2 (proj2 (proj2 (cache_store_then_load [(0, CSetTTL 5)]
             "k" (VInt 7) 0 6))) _ _)).
    + vm_compute. reflexivity.
    + vm_compute. reflexivity.
  - refine (proj2 (proj1 (proj2 (proj2 (cache_store_then_load [(0, CSetTTL 5)]
             "k" (VInt 7) 0 5))) _)).
    intros _. vm_compute. congruence.
Defined.


(** * When the engine learns of [TTL] and [OnEvicted] *)

Lemma config_removeElement e w co :
  ttl (Core.removeElement e w co).2 = ttl co ∧
  onEvicted (Core.removeElement e w co).2 = onEvicted co.
Proof. done. Qed.

Lemma config_load k now w co :
  ttl (Core.load k now w co).1.2 = ttl co ∧
  onEvicted (Core.load k now w co).1.2 = onEvicted co.
Proof.
  unfold Core.load. destruct (cache co !! k) as [e|]; [|done].
  destruct (_ && _); [|done].
  pose proof (config_removeElement e w co).
  by destruct (Core.removeElement e w co).
Qed.

(** X6.  The engine works with the TTL and the callback it was handed by
    the last [Store]: [Store] copies the fields [TTL] and [OnEvicted] into
    the engine, and no other event (a call of [Load], [Delete],
    [RemoveOldest], [Len], [Clear] or [Keys], an assignment to one of the
    two fields, a timer going off) changes what the engine holds.  So an
    assignment to [TTL] or [OnEvicted] has no effect on expiry and on the
    calls made by [Load], [Delete] and [RemoveOldest] until the next
    [Store]. *)
Theorem config_latched_at_Store (s : state) (t : Z) (o : op) (k : string) (v : value) :
  ((∀ k' v', o ≠ OpStore k' v') →
   ttl (c (History.step t o s).2) = ttl (c s.2) ∧
   onEvicted (c (History.step t o s).2) = onEvicted (c s.2)) ∧
  ttl (c (History.step t (OpStore k v) s).2) = TTL s.2 ∧
  onEvicted (c (History.step t (OpStore k v) s).2) = OnEvicted s.2.
Proof.
  split; [|apply config_Store].
  intros Hns. destruct o; simpl; try done.
  - by destruct (Hns key v0).
  - destruct s as [w l]. unfold Lru.Load.
    pose proof (config_load key t w (c l)) as Hc.
    destruct (Core.load key t w (c l)) as [[w1 c1] [[e ok] err]].
    by destruct e, ok, err.
  - destruct s as [w l]. unfold Lru.Delete, Core.delete. cbn [fst snd].
    destruct (cache (c l) !! key) as [e|]; [|done].
    pose proof (config_removeElement e w (c l)) as Hc.
    by destruct (Core.removeElement e w (c l)).
  - unfold Lru.RemoveOldest.
    by destruct (StoreFacts.config_removeOldest s) as (-> & -> & _).
  - destruct s as [w l]. unfold Lru.Clear. by destruct (OnEvicted l).
  - unfold History.fire. destruct (timers s.1 !! t0) as [x|]; [|done].
    destruct (_ && _); [|done]. unfold History.trigger.
    match goal with |- context [Core.load ?a ?b ?w ?co] =>
      pose proof (config_load a b w co) as Hc;
      destruct (Core.load a b w co) as [[w1 c1] ?] end.
    done.
Qed.

Lemma config_latched_at_Store_witness :
  onEvicted (c (History.step 1 (SetOnEvicted true)
                  (History.run [(0, OpStore "a" (VInt 1))] (Lru.New 2))).2)
  = false.
Proof.
  refine (proj2 (proj1 (config_latched_at_Store
           (History.run [(0, OpStore "a" (VInt 1))] (Lru.New 2))
           1 (SetOnEvicted true) "a" VNil) _)).
  intros k' v'. discriminate.
Defined.
